(** * math-plotter: the plotGraph pipeline of src/App.vue

    A shallow embedding of the script block of [App.vue] (state, palette,
    [getLineColor], [addExpression], [removeExpression], [plotGraph]) and the
    properties of the sampling pipeline.

    Conventions of the embedding.
    - A JavaScript number is a value of [num]: a finite value, [+Infinity],
      [-Infinity] or [NaN].  Finite values are exact rationals ([Qc], in
      lowest terms, so equal numbers are equal terms); the special values
      follow the IEEE 754 rules.  Rounding, overflow and the sign of zero of
      binary64 are not represented there: what is stated of the values of
      the domain points is stated of [xValues64], the sampling loop of lines
      131-135 over binary64 numbers ([spec_float], precision 53, rounding to
      nearest even).
    - Strings are sequences of 8-bit characters.
    - math.js ([math.compile], [compiledExpr.evaluate]) and the two builtin
      conversions between strings and numbers are collaborators outside the
      repository: they are the fields of a [runtime] record the pipeline is
      parameterised by.
    - [await nextTick()] only lets the view repaint; the code after it is
      run as the continuation of the code before it. *)

From Stdlib Require Import List String Ascii Bool Arith ZArith NArith Lia.
From Stdlib Require Import QArith Qabs Qcanon Qround DecimalString.
From Stdlib Require Import Qpower Lqa SpecFloat.
Import ListNotations.

Local Open Scope string_scope.

(* ------------------------------------------------------------------ *)
(** ** Numbers *)

Module Num.

Local Open Scope Qc_scope.

Inductive num : Type :=
| Fin (q : Qc)
| PosInf
| NegInf
| NaN.

Definition of_Z (z : Z) : num := Fin (Q2Qc (inject_Z z)).
Definition of_nat (n : nat) : num := of_Z (Z.of_nat n).

(** The finite value of a loop counter, of a whole number. *)
Definition Qc_of_Z (z : Z) : Qc := Q2Qc (inject_Z z).
Definition Qc_of_nat (n : nat) : Qc := Q2Qc (inject_Z (Z.of_nat n)).

Definition isFinite (a : num) : bool :=
  match a with Fin _ => true | _ => false end.

(** Sign of a finite value, with zero counted as positive zero. *)
Definition nonneg (q : Qc) : bool :=
  match q ?= 0 with Lt => false | _ => true end.

Definition is_zero (q : Qc) : bool :=
  match q ?= 0 with Eq => true | _ => false end.

Definition inf_of_sign (positive : bool) : num :=
  if positive then PosInf else NegInf.

Definition neg (a : num) : num :=
  match a with
  | Fin q => Fin (- q)
  | PosInf => NegInf
  | NegInf => PosInf
  | NaN => NaN
  end.

Definition add (a b : num) : num :=
  match a, b with
  | NaN, _ | _, NaN => NaN
  | Fin p, Fin q => Fin (p + q)
  | PosInf, NegInf | NegInf, PosInf => NaN
  | PosInf, _ | _, PosInf => PosInf
  | NegInf, _ | _, NegInf => NegInf
  end.

Definition sub (a b : num) : num := add a (neg b).

Definition mul (a b : num) : num :=
  match a, b with
  | NaN, _ | _, NaN => NaN
  | Fin p, Fin q => Fin (p * q)
  | Fin p, PosInf | PosInf, Fin p =>
      if is_zero p then NaN else inf_of_sign (nonneg p)
  | Fin p, NegInf | NegInf, Fin p =>
      if is_zero p then NaN else inf_of_sign (negb (nonneg p))
  | PosInf, PosInf | NegInf, NegInf => PosInf
  | PosInf, NegInf | NegInf, PosInf => NegInf
  end.

Definition div (a b : num) : num :=
  match a, b with
  | NaN, _ | _, NaN => NaN
  | Fin p, Fin q =>
      if is_zero q
      then (if is_zero p then NaN else inf_of_sign (nonneg p))
      else Fin (p / q)
  | Fin _, PosInf | Fin _, NegInf => Fin 0
  | PosInf, Fin q => inf_of_sign (nonneg q)
  | NegInf, Fin q => inf_of_sign (negb (nonneg q))
  | _, _ => NaN
  end.

(** [a < b] on numbers: false as soon as one side is [NaN]. *)
Definition ltb (a b : num) : bool :=
  match a, b with
  | NaN, _ | _, NaN => false
  | Fin p, Fin q => match p ?= q with Lt => true | _ => false end
  | NegInf, NegInf => false
  | NegInf, _ => true
  | _, PosInf => match a with PosInf => false | _ => true end
  | _, _ => false
  end.

(** [a >= b] on numbers: false as soon as one side is [NaN]. *)
Definition geb (a b : num) : bool :=
  match a, b with
  | NaN, _ | _, NaN => false
  | _, _ => negb (ltb a b)
  end.

End Num.

Export Num.

(* ------------------------------------------------------------------ *)
(** ** Binary64 numbers

    The numbers of JavaScript as they are: the binary64 format of IEEE 754,
    every operation rounded to nearest, ties to even. *)

(** [2^e] *)
Definition pow2 (e : Z) : Q := ((2 # 1) ^ e)%Q.

Module Binary64.

Definition prec : Z := 53.
Definition emax : Z := 1024.

Definition add : spec_float -> spec_float -> spec_float := SFadd prec emax.
Definition sub : spec_float -> spec_float -> spec_float := SFsub prec emax.
Definition mul : spec_float -> spec_float -> spec_float := SFmul prec emax.
Definition div : spec_float -> spec_float -> spec_float := SFdiv prec emax.

(** [a < b] *)
Definition ltb : spec_float -> spec_float -> bool := SFltb.

(** The double of a whole number, of a loop counter. *)
Definition of_Z (z : Z) : spec_float := binary_normalize prec emax z 0 false.
Definition of_nat (n : nat) : spec_float := of_Z (Z.of_nat n).

(** [isFinite] *)
Definition isFinite (x : spec_float) : bool :=
  match x with
  | S754_zero _ | S754_finite _ _ _ => true
  | S754_infinity _ | S754_nan => false
  end.

(** A finite double above zero. *)
Definition positive (x : spec_float) : bool :=
  match x with
  | S754_finite false _ _ => true
  | _ => false
  end.

(** [Number.MAX_VALUE], that is [2^1024 - 2^971]. *)
Definition maxValue : spec_float := S754_finite false 9007199254740991 971.

(** The number a double stands for (0 for the three that are not
    numbers): its absolute value, its sign, the number. *)
Definition magnitude (x : spec_float) : Q :=
  match x with
  | S754_finite _ m e => (inject_Z (Zpos m) * pow2 e)%Q
  | _ => 0%Q
  end.

Definition negative (x : spec_float) : bool :=
  match x with
  | S754_zero s | S754_infinity s | S754_finite s _ _ => s
  | S754_nan => false
  end.

Definition value (x : spec_float) : Q :=
  if negative x then (- magnitude x)%Q else magnitude x.

End Binary64.

(* ------------------------------------------------------------------ *)
(** ** Strings *)

(** The double-quote character, code 34. *)
Definition dquote : string := String "034"%char EmptyString.

(** White space as [String.prototype.trim] sees it on 8-bit characters:
    TAB, LF, VT, FF, CR, SPACE and NBSP. *)
Definition is_white_space (c : ascii) : bool :=
  match N_of_ascii c with
  | 9 | 10 | 11 | 12 | 13 | 32 | 160 => true
  | _ => false
  end%N.

Fixpoint trimStart (s : string) : string :=
  match s with
  | EmptyString => EmptyString
  | String c rest => if is_white_space c then trimStart rest else s
  end.

(** [trimEnd]: a character is kept when it, or anything after it, is not
    white space. *)
Fixpoint trimEnd (s : string) : string :=
  match s with
  | EmptyString => EmptyString
  | String c rest =>
      match trimEnd rest with
      | EmptyString => if is_white_space c then EmptyString
                       else String c EmptyString
      | kept => String c kept
      end
  end.

Definition trim (s : string) : string := trimEnd (trimStart s).

(** Truthiness of a string: non-empty. *)
Definition truthy (s : string) : bool :=
  match s with EmptyString => false | _ => true end.

(** [value.match(/[xX]/)] as a condition: some character is [x] or [X]. *)
Fixpoint match_xX (s : string) : bool :=
  match s with
  | EmptyString => false
  | String c rest =>
      if (Ascii.eqb c "x" || Ascii.eqb c "X")%bool then true else match_xX rest
  end.

(** Decimal digits of a natural number. *)
Definition digits (n : N) : string := NilZero.string_of_uint (N.to_uint n).

(* ------------------------------------------------------------------ *)
(** ** Values, collaborators and their conversions *)

(** What a ref bound to an [<input type="number" v-model.number>] can hold,
    and what [plotGraph] tests it against: [null], a number, or the string
    the binding leaves when the text of the field is not a number (the empty
    string of a cleared field). *)
Inductive field : Type :=
| FNull
| FNum (n : num)
| FStr (s : string).

(** The result of [compiledExpr.evaluate]: [plotGraph] observes [typeof y]
    and, for a number, its value.  [ROther t] is any value whose [typeof] is
    [t], different from ["number"] (a Complex or a Matrix object, a boolean,
    a string, [undefined], a function). *)
Inductive result : Type :=
| RNum (y : num)
| ROther (type_of : string).

(** The collaborators.  [inl message] is a thrown [Error] with that
    message.  An evaluation is taken to depend on the scope only: an
    expression that draws random numbers ([random()], [pickRandom(...)])
    is outside what is modelled, and nothing below compares the results of
    two calls of [plotGraph]. *)
Record runtime : Type := {
  compiled : Type;
  compile : string -> string + compiled;             (* math.compile *)
  evaluate : compiled -> field -> string + result;   (* .evaluate({x: x}) *)
  NumberToString : Qc -> string;   (* Number::toString, finite values *)
  StringToNumber : string -> num;  (* StringToNumber, non-blank strings *)
}.

Section Conversions.

Variable R : runtime.

Definition ToString (n : num) : string :=
  match n with
  | NaN => "NaN"
  | PosInf => "Infinity"
  | NegInf => "-Infinity"
  | Fin q => NumberToString R q
  end.

Definition ToNumber (v : field) : num :=
  match v with
  | FNull => Fin 0%Qc
  | FNum n => n
  | FStr s => if truthy (trim s) then StringToNumber R s else Fin 0%Qc
  end.

(** [a === null] *)
Definition is_null (a : field) : bool :=
  match a with FNull => true | _ => false end.

(** [a < b]: two strings are compared as strings, anything else as
    numbers. *)
Definition js_lt (a b : field) : bool :=
  match a, b with
  | FStr s, FStr t => String.ltb s t
  | _, _ => Num.ltb (ToNumber a) (ToNumber b)
  end.

(** [a > b] *)
Definition js_gt (a b : field) : bool := js_lt b a.

(** [a >= b] *)
Definition js_ge (a b : field) : bool :=
  match a, b with
  | FStr s, FStr t => negb (String.ltb s t)
  | _, _ => Num.geb (ToNumber a) (ToNumber b)
  end.

(** [a - b] *)
Definition js_sub (a b : field) : num := Num.sub (ToNumber a) (ToNumber b).

(** [a + b] with [b] a number: concatenation when [a] is a string. *)
Definition js_add (a : field) (b : num) : field :=
  match a with
  | FStr s => FStr (s ++ ToString b)
  | _ => FNum (Num.add (ToNumber a) b)
  end.

Definition pad2 (n : N) : string :=
  if (n <? 10)%N then "0" ++ digits n else digits n.

(** [Number.prototype.toFixed] with two fraction digits. *)
Definition toFixed2 (n : num) : string :=
  match n with
  | Fin q =>
      let s := if Num.nonneg q then "" else "-" in
      let a := Qabs q in
      if Qle_bool (inject_Z (10 ^ 21)) a
      then s ++ NumberToString R (Q2Qc a)
      else
        let k := Z.to_N (Qfloor (a * inject_Z 100 + (1 # 2))) in
        s ++ digits (k / 100) ++ "." ++ pad2 (k mod 100)
  | _ => ToString n
  end.

(** [x.toFixed(2)] on a value of the sampling loop: only a number has the
    method. *)
Definition call_toFixed (x : field) : string + string :=
  match x with
  | FNum n => inr (toFixed2 n)
  | FNull => inl "TypeError: Cannot read properties of null"
  | FStr _ => inl "TypeError: toFixed is not a function"
  end.

End Conversions.

(* ------------------------------------------------------------------ *)
(** ** State of the component *)

Record expression : Type := { id : nat; value : string }.

Record dataset : Type := {
  label : string;
  data : list (option num);
  borderColor : string;
  tension : num;
  fill : bool;
  pointRadius : nat;
  pointHoverRadius : nat;
}.

(** A chart of the rendering library, as far as the data handed to it goes
    (its type is always ['line'] and its options are constant). *)
Record chart : Type := {
  labels : list string;
  datasets : list dataset;
}.

Record state : Type := {
  nextExprId : nat;
  expressions : list expression;
  minX : field;
  maxX : field;
  numPoints : field;
  errorMessage : string;
  loading : bool;
  chartCanvas : bool;             (* the canvas ref is mounted *)
  chartInstance : option chart;
  destroyed : list chart;         (* charts destroy() ran on, latest first *)
}.

Definition set_expressions (st : state) (n : nat) (es : list expression) :=
  {| nextExprId := n; expressions := es;
     minX := minX st; maxX := maxX st; numPoints := numPoints st;
     errorMessage := errorMessage st; loading := loading st;
     chartCanvas := chartCanvas st; chartInstance := chartInstance st;
     destroyed := destroyed st |}.

Definition set_errorMessage (st : state) (m : string) :=
  {| nextExprId := nextExprId st; expressions := expressions st;
     minX := minX st; maxX := maxX st; numPoints := numPoints st;
     errorMessage := m; loading := loading st;
     chartCanvas := chartCanvas st; chartInstance := chartInstance st;
     destroyed := destroyed st |}.

Definition set_loading (st : state) (b : bool) :=
  {| nextExprId := nextExprId st; expressions := expressions st;
     minX := minX st; maxX := maxX st; numPoints := numPoints st;
     errorMessage := errorMessage st; loading := b;
     chartCanvas := chartCanvas st; chartInstance := chartInstance st;
     destroyed := destroyed st |}.

Definition set_chart (st : state) (c : option chart) (d : list chart) :=
  {| nextExprId := nextExprId st; expressions := expressions st;
     minX := minX st; maxX := maxX st; numPoints := numPoints st;
     errorMessage := errorMessage st; loading := loading st;
     chartCanvas := chartCanvas st; chartInstance := c;
     destroyed := d |}.

(** The state the script block starts from. *)
Definition initial : state :=
  {| nextExprId := 2; expressions := [ {| id := 1; value := "x^2" |} ];
     minX := FNum (of_Z (-10)); maxX := FNum (of_Z 10);
     numPoints := FNum (of_Z 100);
     errorMessage := ""; loading := false;
     chartCanvas := true; chartInstance := None; destroyed := [] |}.

Definition lineColors : list string :=
  [ "rgb(75, 192, 192)";
    "rgb(255, 99, 132)";
    "rgb(54, 162, 235)";
    "rgb(255, 206, 86)";
    "rgb(153, 102, 255)";
    "rgb(255, 159, 64)";
    "rgb(201, 203, 207)" ].

Definition getLineColor (index : nat) : string :=
  nth (index mod List.length lineColors)%nat lineColors "".

Definition addExpression (st : state) : state :=
  set_expressions st (S (nextExprId st))
    (expressions st ++ [ {| id := nextExprId st; value := "" |} ]).

Definition removeExpression (idToRemove : nat) (st : state) : state :=
  if (1 <? List.length (expressions st))%nat
  then set_expressions st (nextExprId st)
         (filter (fun expr => negb (id expr =? idToRemove)%nat)
                 (expressions st))
  else st.

(** [!expr.value.trim()] *)
Definition blank (expr : expression) : bool :=
  negb (truthy (trim (value expr))).

(* ------------------------------------------------------------------ *)
(** ** plotGraph *)

Definition msgEmpty : string :=
  "Please enter at least one mathematical expression.".
Definition msgRange : string :=
  "Min X must be less than Max X, and both must be valid numbers.".
Definition msgCount : string :=
  "Number of points must be between 2 and 1000.".
Definition msgNoValid : string := "No valid expressions to plot.".

Definition msgParse (text e : string) : string :=
  "Error parsing " ++ dquote ++ text ++ dquote ++ ": " ++ e.
Definition msgEval (text x e : string) : string :=
  "Error evaluating " ++ dquote ++ text ++ dquote ++ " at x=" ++ x ++ ": " ++ e.

(** How a loop of [plotGraph] is left early: by its own [return] after the
    error message [msg] was stored, or by an exception nothing catches. *)
Inductive exit : Type :=
| Return (msg : string)
| Throw (err : string).

(** How a call of [plotGraph] ends: the promise is fulfilled, or rejected
    with an uncaught exception; either way with the state it leaves. *)
Inductive outcome : Type :=
| Fulfilled (st : state)
| Rejected (st : state) (err : string).

Definition final (o : outcome) : state :=
  match o with Fulfilled st => st | Rejected st _ => st end.

(** Sequencing of two pieces of a loop: the second runs on what the first
    produced unless the first left the loop. *)
Definition andThen {A B : Type} (m : exit + A) (k : A -> exit + B)
  : exit + B :=
  match m with
  | inl e => inl e
  | inr a => k a
  end.

(** The entries a plot makes a curve of, each with its index in
    [expressions.value], counted from [i]. *)
Definition plotted (i : nat) (exprs : list expression)
  : list (nat * expression) :=
  filter (fun p => negb (blank (snd p)))
         (combine (seq i (List.length exprs)) exprs).

Section PlotGraph.

Variable R : runtime.

(** Lines 114-125: the three checks, in order; [Some msg] is the message of
    the first one that fails. *)
Definition validate (st : state) : option string :=
  if forallb blank (expressions st) then Some msgEmpty
  else if (is_null (minX st) || is_null (maxX st)
           || js_ge R (minX st) (maxX st))%bool then Some msgRange
  else if (js_lt R (numPoints st) (FNum (of_Z 2))
           || js_gt R (numPoints st) (FNum (of_Z 1000)))%bool then Some msgCount
  else None.

(** Line 132 *)
Definition step (st : state) : num :=
  Num.div (js_sub R (maxX st) (minX st))
          (js_sub R (numPoints st) (FNum (of_Z 1))).

(** Lines 133-135: the loop [for (let i = 0; i < numPoints.value; i++)],
    entered at counter [i] with the points pushed so far, run for at most
    [fuel] turns. *)
Fixpoint pushPoints (st : state) (fuel i : nat) (xValues : list field)
  : list field :=
  match fuel with
  | O => xValues
  | S fuel' =>
      if js_lt R (FNum (of_nat i)) (numPoints st)
      then pushPoints st fuel' (S i)
             (xValues ++ [js_add R (minX st) (Num.mul (of_nat i) (step st))])
      else xValues
  end.

(** The point pushed at turn [i] of that loop (line 134). *)
Definition point (st : state) (i : nat) : field :=
  js_add R (minX st) (Num.mul (of_nat i) (step st)).

(** The loop is only reached with [numPoints.value > 1000] false, so it
    stops by its own condition within a thousand turns
    ([pushPoints_fuel] below). *)
Definition maxPoints : nat := 1000.

Definition xValues (st : state) : list field := pushPoints st maxPoints 0 [].

(** Line 155: [typeof y === 'number' && isFinite(y) ? y : null] *)
Definition sampleOf (y : result) : option num :=
  match y with
  | RNum n => if isFinite n then Some n else None
  | ROther _ => None
  end.

(** Lines 152-161: the loop over [xValues] for one compiled expression. *)
Fixpoint evalPoints (c : compiled R) (text : string) (xs : list field)
  (yValues : list (option num)) : exit + list (option num) :=
  match xs with
  | [] => inr yValues
  | x :: rest =>
      match evaluate R c x with
      | inr y => evalPoints c text rest (yValues ++ [sampleOf y])
      | inl e =>
          match call_toFixed R x with
          | inr sx => inl (Return (msgEval text sx e))
          | inl err => inl (Throw err)
          end
      end
  end.

(** Lines 162-170 *)
Definition makeDataset (i : nat) (text : string) (yValues : list (option num))
  : dataset :=
  {| label := "y = " ++ text;
     data := yValues;
     borderColor := getLineColor i;
     tension := Fin (Q2Qc (1 # 10));
     fill := false;
     pointRadius := if match_xX text then 0 else 3;
     pointHoverRadius := 5 |}.

(** Lines 138-171: the loop over [expressions.value], entered at index [i]
    with the remaining entries and the datasets pushed so far. *)
Fixpoint plotLoop (xs : list field) (exprs : list expression) (i : nat)
  (acc : list dataset) : exit + list dataset :=
  match exprs with
  | [] => inr acc
  | currentExpression :: rest =>
      if blank currentExpression then plotLoop xs rest (S i) acc
      else
        match compile R (value currentExpression) with
        | inl e => inl (Return (msgParse (value currentExpression) e))
        | inr compiledExpr =>
            match evalPoints compiledExpr (value currentExpression) xs [] with
            | inl ex => inl ex
            | inr yValues =>
                plotLoop xs rest (S i)
                  (acc ++ [makeDataset i (value currentExpression) yValues])
            end
        end
  end.

(** [chartInstance.destroy()] when there is a chart. *)
Definition destroyChart (st : state) : list chart :=
  match chartInstance st with
  | Some c => c :: destroyed st
  | None => destroyed st
  end.

(** Line 188: [xValues.map((val) => val.toFixed(2))] *)
Fixpoint makeLabels (xs : list field) : string + list string :=
  match xs with
  | [] => inr []
  | x :: rest =>
      match call_toFixed R x with
      | inl err => inl err
      | inr s =>
          match makeLabels rest with
          | inl err => inl err
          | inr ls => inr (s :: ls)
          end
      end
  end.

(** Lines 173-209: what happens once the loop over the expressions has
    finished with the datasets [ds]. *)
Definition render (st : state) (xs : list field) (ds : list dataset)
  : outcome :=
  match ds with
  | [] =>
      Fulfilled
        (set_loading
           (set_chart (set_errorMessage st msgNoValid)
                      (match chartInstance st with
                       | Some _ => None
                       | None => chartInstance st
                       end)
                      (destroyChart st))
           false)
  | _ :: _ =>
      let st1 := set_chart st (chartInstance st) (destroyChart st) in
      if chartCanvas st1 then
        match makeLabels xs with
        | inl err => Rejected st1 err
        | inr ls =>
            Fulfilled
              (set_loading
                 (set_chart st1 (Some {| labels := ls; datasets := ds |})
                            (destroyed st1))
                 false)
        end
      else Fulfilled (set_loading st1 false)
  end.

(** Lines 113-209.  The bounds, the sample count and the entries are read
    after line 128 has run, which changes none of them: they are read from
    [st]. *)
Definition plotGraph (st : state) : outcome :=
  match validate st with
  | Some msg => Fulfilled (set_errorMessage st msg)
  | None =>
      let st1 := set_loading (set_errorMessage st "") true in
      let xs := xValues st in
      match plotLoop xs (expressions st) 0 [] with
      | inl (Return msg) =>
          Fulfilled (set_loading (set_errorMessage st1 msg) false)
      | inl (Throw err) => Rejected st1 err
      | inr ds => render st1 xs ds
      end
  end.

(** What the loop of lines 152-161 pushes for a point when nothing is
    thrown there. *)
Definition sampleAt (c : compiled R) (x : field) : option num :=
  match evaluate R c x with
  | inr y => sampleOf y
  | inl _ => None
  end.

(** The dataset [d] is the curve of the entry [snd p], found at index
    [fst p] of [expressions.value], sampled at [xs]. *)
Definition curveOf (xs : list field) (p : nat * expression) (d : dataset)
  : Prop :=
  exists c,
    compile R (value (snd p)) = inr c
    /\ (forall x, In x xs -> exists y, evaluate R c x = inr y)
    /\ d = makeDataset (fst p) (value (snd p)) (map (sampleAt c) xs).

(** The entry [e] makes the plot fail at the points [xs], leaving the loop
    by [ex]. *)
Definition failsWith (xs : list field) (e : expression) (ex : exit) : Prop :=
  (exists m, compile R (value e) = inl m
             /\ ex = Return (msgParse (value e) m))
  \/ (exists c x m,
        compile R (value e) = inr c /\ In x xs /\ evaluate R c x = inl m
        /\ ex = match call_toFixed R x with
                | inr sx => Return (msgEval (value e) sx m)
                | inl err => Throw err
                end).

(** [onMounted] *)
Definition onMounted (st : state) : outcome :=
  if existsb (fun e => truthy (trim (value e))) (expressions st)
  then plotGraph st else Fulfilled st.

End PlotGraph.

(* ------------------------------------------------------------------ *)
(** ** The sampling loop on binary64 numbers

    Lines 131-135 once more, for bounds and a sample count that are numbers,
    with the arithmetic of the language: [maxX.value - minX.value],
    [numPoints.value - 1], the division, [i * step] and the sum are each
    rounded to binary64, and can overflow. *)

(** Line 132 *)
Definition step64 (minX maxX numPoints : spec_float) : spec_float :=
  Binary64.div (Binary64.sub maxX minX)
               (Binary64.sub numPoints (Binary64.of_nat 1)).

(** Lines 133-135, entered at counter [i] with the points pushed so far, run
    for at most [fuel] turns. *)
Fixpoint pushPoints64 (minX maxX numPoints : spec_float) (fuel i : nat)
  (xValues : list spec_float) : list spec_float :=
  match fuel with
  | O => xValues
  | S fuel' =>
      if Binary64.ltb (Binary64.of_nat i) numPoints
      then pushPoints64 minX maxX numPoints fuel' (S i)
             (xValues
              ++ [Binary64.add minX
                    (Binary64.mul (Binary64.of_nat i)
                                  (step64 minX maxX numPoints))])
      else xValues
  end.

Definition xValues64 (minX maxX numPoints : spec_float) : list spec_float :=
  pushPoints64 minX maxX numPoints maxPoints 0 [].

(* ------------------------------------------------------------------ *)
(** ** A stand-in for the collaborators

    A small runtime on which the pipeline can be run.  It knows a handful of
    expression texts and answers on them, at a number, as math.js does;
    every other text is refused when compiled.  A text without the variable
    ([5], [X = 3], [i], [y]) is answered on whatever [x] holds; one with the
    variable is refused when [x] does not hold a number. *)

Module Demo.

Inductive expr : Type :=
| Var                      (* x *)
| Square                   (* x^2 *)
| Const (q : Qc)           (* 5, X = 3 *)
| Recip                    (* 1/x *)
| Imaginary                (* i *)
| Symbol (name : string).  (* y *)

Definition compileText (text : string) : string + expr :=
  if String.eqb text "x" then inr Var
  else if String.eqb text "x^2" then inr Square
  else if String.eqb text "5" then inr (Const (Q2Qc (inject_Z 5)))
  else if String.eqb text "X = 3" then inr (Const (Q2Qc (inject_Z 3)))
  else if String.eqb text "1/x" then inr Recip
  else if String.eqb text "i" then inr Imaginary
  else if String.eqb text "y" then inr (Symbol "y")
  else if String.eqb text "x +" then inl "Unexpected end of expression (char 4)"
  else inl "not a text of the stand-in".

Definition evaluateAt (e : expr) (x : field) : string + result :=
  match e, x with
  | Const q, _ => inr (RNum (Fin q))
  | Imaginary, _ => inr (ROther "object")
  | Symbol name, _ => inl ("Undefined symbol " ++ name)
  | Var, FNum n => inr (RNum n)
  | Square, FNum n => inr (RNum (Num.mul n n))
  | Recip, FNum n => inr (RNum (Num.div (Fin 1%Qc) n))
  | _, _ => inl "not a scope of the stand-in"
  end.

(** Integers print as JavaScript prints them (below [10^21]); the other
    finite values print as a fraction. *)
Definition showNumber (q : Qc) : string :=
  let sign := if Num.nonneg q then "" else "-" in
  let n := digits (Z.abs_N (Qnum q)) in
  match Qden q with
  | 1%positive => sign ++ n
  | d => sign ++ n ++ "/" ++ digits (Npos d)
  end.

(** A string kept by a number field does not read as a number. *)
Definition readString (s : string) : num := NaN.

Definition runtime : runtime :=
  {| compiled := expr;
     compile := compileText;
     evaluate := evaluateAt;
     NumberToString := showNumber;
     StringToNumber := readString |}.

Definition entries (texts : list string) : list expression :=
  map (fun p => {| id := S (fst p); value := snd p |})
      (combine (seq 0 (List.length texts)) texts).

(** The initial state with other inputs. *)
Definition input (texts : list string) (lo hi n : field) : state :=
  {| nextExprId := S (List.length texts); expressions := entries texts;
     minX := lo; maxX := hi; numPoints := n;
     errorMessage := ""; loading := false;
     chartCanvas := true; chartInstance := None; destroyed := [] |}.

Definition int (z : Z) : field := FNum (of_Z z).

(** A chart left by an earlier plot. *)
Definition oldChart : chart := {| labels := ["0.00"; "1.00"]; datasets := [] |}.

Definition withChart (st : state) : state := set_chart st (Some oldChart) [].

(** Inputs of the examples. *)
Definition parabola : state := input ["x^2"] (int (-2)) (int 2) (int 5).
Definition unfinished : state :=
  withChart (input ["x^2"; "x +"] (int (-1)) (int 1) (int 4)).
Definition blankFirst : state := input [""; "x"] (int (-1)) (int 1) (int 3).
Definition onlyX : state := input ["x"] (int (-1)) (int 1) (int 3).
Definition assignment : state := input ["X = 3"] (int (-1)) (int 1) (int 3).
Definition allBlankReversed : state := input [""] (int 5) (int 1) (int 100).
Definition allBlankOnePoint : state := input [""] (int (-10)) (int 10) (int 1).
Definition reversed : state := input ["x^2"] (int 5) (int 1) (int 100).
Definition reversedOnePoint : state := input ["x^2"] (int 5) (int 1) (int 1).
Definition clearedMax : state := input ["x^2"] (int (-10)) (FStr "") (int 5).
Definition onePoint : state := input ["x"] (int 1) (int 2) (int 1).
Definition clearedMin : state := input ["x"] (FStr "") (int 1) (int 3).
Definition halfCount : state :=
  input ["x"] (int 0) (int 3) (FNum (Fin (Q2Qc (5 # 2)))).
Definition threeCurves : state :=
  input ["x"; "x^2"; "5"] (int (-1)) (int 1) (int 3).

(** Min X cleared: the field holds the empty string. *)
Definition clearedMinUndefined : state :=
  input ["y"] (FStr "") (int 2) (int 3).


End Demo.

(* ------------------------------------------------------------------ *)
(** ** Vocabulary of the properties *)

Definition nonblank (e : expression) : bool := negb (blank e).

(** A letter [x], in either case, occurs in the text. *)
Definition hasLetterX (text : string) : Prop :=
  In "x"%char (list_ascii_of_string text)
  \/ In "X"%char (list_ascii_of_string text).

(** The datasets of the chart a call leaves, if it leaves one. *)
Definition chartDatasets (o : outcome) : list dataset :=
  match chartInstance (final o) with
  | Some ch => datasets ch
  | None => []
  end.

(** The rule for the colours as the specification words it: the palette is
    indexed by the position of the curve among the plotted curves. *)
Definition colorByPlottedPosition (ds : list dataset) : Prop :=
  forall k d, nth_error ds k = Some d -> borderColor d = getLineColor k.


(** The rule for the markers as the specification words it: the points are
    invisible exactly when the text contains the evaluation variable, [x]. *)
Definition containsVariable (text : string) : bool :=
  existsb (Ascii.eqb "x") (list_ascii_of_string text).

Definition markersByVariable (ds : list dataset) (texts : list string)
  : Prop :=
  Forall2 (fun d text =>
             (containsVariable text = true -> pointRadius d = 0)
             /\ (containsVariable text = false -> 0 < pointRadius d))%nat
          ds texts.

(** *** Rounding to binary64

    How far a rounded operation may be from the exact one, and a domain
    point from where it would lie in exact arithmetic. *)

Section Rounding.

Local Open Scope Q_scope.

(** Where a number [x] lies between the whole numbers [m] and [m + 1]. *)
Definition locatedQ (x : Q) (m : Z) (l : location) : Prop :=
  match l with
  | loc_Exact => x == inject_Z m
  | loc_Inexact Lt => inject_Z m < x /\ x < inject_Z m + (1 # 2)
  | loc_Inexact Eq => x == inject_Z m + (1 # 2)
  | loc_Inexact Gt => inject_Z m + (1 # 2) < x /\ x < inject_Z m + 1
  end.

(** The relative error of one rounding, [2^-53], and the absolute error of
    one that underflows, [2^-1075]. *)
Definition epsilon : Q := pow2 (-53).
Definition tiny : Q := pow2 (-1075).

(** The double [r] is the number [v], up to one rounding. *)
Definition near (r : spec_float) (v : Q) : Prop :=
  Qabs (Binary64.value r - v) <= epsilon * Qabs v + tiny.

Definition signed (s : bool) (q : Q) : Q := if s then - q else q.

(** How far a domain point may lie from where it would in exact
    arithmetic. *)
Definition tolerance (a b : Q) : Q :=
  (1 # 1125899906842624) * (Qabs a + Qabs b) + pow2 (-1064).

(** The point at index [i] of [n] evenly spaced points from [a] to [b]. *)
Definition evenPoint (a b : Q) (n i : nat) : Q :=
  a + inject_Z (Z.of_nat i) / inject_Z (Z.of_nat n - 1) * (b - a).

(** The bound on [|minX|] and [|maxX|] under which no operation of the
    sampling loop overflows: [2^1021], an eighth of [2^1024], the first
    power of two that is not a double. *)
Definition safeBound : Q := pow2 1021.

End Rounding.

(* ------------------------------------------------------------------ *)
(** ** The rest of the component *)

(** [onBeforeUnmount] *)
Definition onBeforeUnmount (st : state) : state :=
  set_chart st (chartInstance st) (destroyChart st).

(** What the user does to the list of entries: the button of line 26 and
    the buttons of line 17. *)
Inductive edit : Type :=
| AddRow
| RemoveRow (idToRemove : nat).

Definition applyEdit (st : state) (a : edit) : state :=
  match a with
  | AddRow => addExpression st
  | RemoveRow i => removeExpression i st
  end.

Definition applyEdits (edits : list edit) (st : state) : state :=
  fold_left applyEdit edits st.

(** The list of entries as the script block keeps it: never empty, ids all
    different and all below the next id to hand out. *)
Definition wellFormed (st : state) : Prop :=
  expressions st <> []
  /\ NoDup (map id (expressions st))
  /\ Forall (fun e => (id e < nextExprId st)%nat) (expressions st).

(** Every character of the text is white space. *)
Definition allWhiteSpace (text : string) : Prop :=
  forall c, In c (list_ascii_of_string text) -> is_white_space c = true.

(* ------------------------------------------------------------------ *)
(** * Properties *)

Local Open Scope list_scope.

(** ** Arithmetic of the loop counter *)

Section Counter.

Local Open Scope Qc_scope.

Lemma of_nat_Fin (n : nat) : of_nat n = Fin (Qc_of_nat n).
Proof. reflexivity. Qed.

Lemma Q2Qc_this (q : Q) : (Q2Qc q : Q) == q.
Proof. simpl. apply Qred_correct. Qed.

Lemma Qc_of_nat_0 : Qc_of_nat 0 = 0.
Proof. apply Qc_is_canon. reflexivity. Qed.

End Counter.

(** ** The sampling loop *)

Section Sampling.

Variable R : runtime.

Lemma xValues_unfold (st : state) :
  pushPoints R st maxPoints 0 [] = xValues R st.
Proof. exact (eq_refl (pushPoints R st maxPoints 0 [])). Qed.

(** More fuel than [maxPoints] changes nothing once the sample count has
    passed the check of line 122. *)
Lemma pushPoints_more_fuel (st : state) :
  js_gt R (numPoints st) (FNum (of_Z 1000)) = false ->
  forall d i acc extra, (i + d = maxPoints)%nat ->
    pushPoints R st (d + extra) i acc = pushPoints R st d i acc.
Proof.
  intros Hgt. induction d as [| d IH]; intros i acc extra Hi.
  - cbn [Nat.add]. destruct extra as [| extra]; [reflexivity |].
    replace i with maxPoints by lia.
    cbn [pushPoints]. unfold js_gt in Hgt.
    change (of_nat maxPoints) with (of_Z 1000).
    now rewrite Hgt.
  - cbn [Nat.add pushPoints].
    destruct (js_lt R (FNum (of_nat i)) (numPoints st)); [| reflexivity].
    apply IH. lia.
Qed.

Lemma pushPoints_fuel (st : state) (fuel : nat) :
  js_gt R (numPoints st) (FNum (of_Z 1000)) = false ->
  (maxPoints <= fuel)%nat ->
  pushPoints R st fuel 0 [] = xValues R st.
Proof.
  intros Hgt Hf. unfold xValues.
  replace fuel with (maxPoints + (fuel - maxPoints))%nat by lia.
  now apply pushPoints_more_fuel.
Qed.

End Sampling.

(** ** Rounding to binary64

    What [binary_round_aux] and the four operations return, as numbers. *)

Section Digits.

Local Open Scope Z_scope.

Lemma digits2_pos_bounds (p : positive) :
  2 ^ (Zpos (digits2_pos p) - 1) <= Zpos p < 2 ^ Zpos (digits2_pos p).
Proof.
  induction p as [p IH | p IH |]; cbn [digits2_pos].
  - rewrite Pos2Z.inj_succ.
    replace (Z.succ (Zpos (digits2_pos p)) - 1)
      with (Z.succ (Zpos (digits2_pos p) - 1)) by lia.
    rewrite !Z.pow_succ_r by lia. lia.
  - rewrite Pos2Z.inj_succ.
    replace (Z.succ (Zpos (digits2_pos p)) - 1)
      with (Z.succ (Zpos (digits2_pos p) - 1)) by lia.
    rewrite !Z.pow_succ_r by lia. lia.
  - cbn. lia.
Qed.

Lemma Zdigits2_bounds (m : Z) :
  0 < m -> 0 < Zdigits2 m /\ 2 ^ (Zdigits2 m - 1) <= m < 2 ^ Zdigits2 m.
Proof.
  destruct m as [| p | p]; try lia. intros _. cbn [Zdigits2].
  split; [lia | apply digits2_pos_bounds].
Qed.

Lemma Zdigits2_le (m d : Z) : 0 <= m -> 0 <= d -> m < 2 ^ d -> Zdigits2 m <= d.
Proof.
  intros Hm Hd Hlt.
  destruct (Z.eq_dec m 0) as [-> | Hne]; [cbn; lia |].
  destruct (Zdigits2_bounds m ltac:(lia)) as [Hpos [Hlo _]].
  destruct (Z_le_gt_dec (Zdigits2 m) d) as [H | H]; [exact H |].
  assert (2 ^ d <= 2 ^ (Zdigits2 m - 1)) by (apply Z.pow_le_mono_r; lia).
  lia.
Qed.

Lemma Zdigits2_pow2 (d : Z) : 0 <= d -> Zdigits2 (2 ^ d) = d + 1.
Proof.
  intros Hd.
  assert (Hp : 0 < 2 ^ d) by (apply Z.pow_pos_nonneg; lia).
  destruct (Zdigits2_bounds (2 ^ d) Hp) as [Hpos [Hlo Hhi]].
  apply Z.pow_lt_mono_r_iff in Hhi; try lia.
  apply Z.pow_le_mono_r_iff in Hlo; lia.
Qed.

End Digits.

Section Powers.

Local Open Scope Q_scope.

Lemma pow2_pos (e : Z) : 0 < pow2 e.
Proof. apply Qpower_0_lt. reflexivity. Qed.

Lemma pow2_add (a b : Z) : pow2 (a + b) == pow2 a * pow2 b.
Proof. apply Qpower_plus. discriminate. Qed.

Lemma pow2_succ (a : Z) : pow2 (a + 1) == 2 * pow2 a.
Proof. rewrite pow2_add. change (pow2 1) with 2. ring. Qed.

Lemma pow2_le (a b : Z) : (a <= b)%Z -> pow2 a <= pow2 b.
Proof. intros H. apply Qpower_le_compat_l; [exact H | discriminate]. Qed.

Lemma pow2_Z (k : Z) : (0 <= k)%Z -> inject_Z (2 ^ k) == pow2 k.
Proof. intros H. now rewrite Zpower_Qpower. Qed.

End Powers.

Section Shift.

Local Open Scope Q_scope.

Lemma locatedQ_range (x : Q) (m : Z) (l : location) :
  locatedQ x m l -> inject_Z m <= x /\ x < inject_Z m + 1.
Proof.
  destruct l as [| []]; cbn [locatedQ]; intros H; lra.
Qed.

Lemma locatedQ_eq (x y : Q) (m : Z) (l : location) :
  x == y -> locatedQ x m l -> locatedQ y m l.
Proof.
  intros E. destruct l as [| []]; cbn [locatedQ]; intros H; lra.
Qed.

Lemma shr_record_loc (m : Z) (l : location) :
  shr_m (shr_record_of_loc m l) = m
  /\ loc_of_shr_record (shr_record_of_loc m l) = l.
Proof. destruct l as [| []]; split; reflexivity. Qed.

(** One turn of the shift halves the number and keeps track of where it
    lies. *)
Lemma shr_1_located (x : Q) (mrs : shr_record) :
  (0 <= shr_m mrs)%Z ->
  locatedQ x (shr_m mrs) (loc_of_shr_record mrs) ->
  (0 <= shr_m (shr_1 mrs))%Z
  /\ locatedQ (x * (1 # 2)) (shr_m (shr_1 mrs)) (loc_of_shr_record (shr_1 mrs)).
Proof.
  destruct mrs as [m r s]. cbn [shr_m]. intros Hm H.
  destruct m as [| p | p]; [| | lia].
  - assert (E : inject_Z 0 == 0) by reflexivity.
    destruct r, s; cbn [shr_1 shr_m loc_of_shr_record orb locatedQ] in *;
      split; try lia; lra.
  - destruct p as [p | p |].
    + assert (E : inject_Z (Zpos p~1) == 2 * inject_Z (Zpos p) + 1).
      { rewrite Pos2Z.inj_xI, inject_Z_plus, inject_Z_mult. reflexivity. }
      destruct r, s; cbn [shr_1 shr_m loc_of_shr_record orb locatedQ] in *;
        split; try lia; lra.
    + assert (E : inject_Z (Zpos p~0) == 2 * inject_Z (Zpos p)).
      { rewrite Pos2Z.inj_xO, inject_Z_mult. reflexivity. }
      destruct r, s; cbn [shr_1 shr_m loc_of_shr_record orb locatedQ] in *;
        split; try lia; lra.
    + assert (E : inject_Z 0 == 0) by reflexivity.
      assert (E1 : inject_Z 1 == 1) by reflexivity.
      destruct r, s; cbn [shr_1 shr_m loc_of_shr_record orb locatedQ] in *;
        split; try lia; lra.
Qed.

Lemma iter_pos_shr_located (p : positive) :
  forall (x : Q) (mrs : shr_record),
    (0 <= shr_m mrs)%Z ->
    locatedQ x (shr_m mrs) (loc_of_shr_record mrs) ->
    (0 <= shr_m (SpecFloat.iter_pos shr_1 p mrs))%Z
    /\ locatedQ (x * pow2 (- Zpos p)) (shr_m (SpecFloat.iter_pos shr_1 p mrs))
                (loc_of_shr_record (SpecFloat.iter_pos shr_1 p mrs)).
Proof.
  induction p as [p IH | p IH |]; intros x mrs Hm H; cbn [SpecFloat.iter_pos].
  - destruct (shr_1_located x mrs Hm H) as [H1 L1].
    destruct (IH _ _ H1 L1) as [H2 L2].
    destruct (IH _ _ H2 L2) as [H3 L3].
    split; [exact H3 |].
    eapply locatedQ_eq; [| exact L3].
    replace (- Zpos p~1)%Z with (-1 + (- Zpos p + - Zpos p))%Z by lia.
    rewrite !pow2_add. change (pow2 (-1)) with (1 # 2). ring.
  - destruct (IH _ _ Hm H) as [H2 L2].
    destruct (IH _ _ H2 L2) as [H3 L3].
    split; [exact H3 |].
    eapply locatedQ_eq; [| exact L3].
    replace (- Zpos p~0)%Z with (- Zpos p + - Zpos p)%Z by lia.
    rewrite !pow2_add. ring.
  - destruct (shr_1_located x mrs Hm H) as [H1 L1].
    split; [exact H1 |].
    eapply locatedQ_eq; [| exact L1].
    change (pow2 (-1)) with (1 # 2). reflexivity.
Qed.

(** Rounding to nearest, ties to even, moves by half a unit at most. *)
Lemma round_nearest_even_near (x : Q) (m : Z) (l : location) :
  (0 <= m)%Z -> locatedQ x m l ->
  (m <= round_nearest_even m l <= m + 1)%Z
  /\ Qabs (inject_Z (round_nearest_even m l) - x) <= 1 # 2
  /\ (l = loc_Exact -> round_nearest_even m l = m).
Proof.
  intros Hm H.
  assert (E : inject_Z (m + 1) == inject_Z m + 1).
  { rewrite inject_Z_plus. reflexivity. }
  destruct l as [| []]; cbn [round_nearest_even locatedQ] in *.
  - repeat split; try lia. apply Qabs_Qle_condition. lra.
  - destruct (Z.even m); repeat split; try lia; try discriminate;
      apply Qabs_Qle_condition; lra.
  - repeat split; try lia; try discriminate. apply Qabs_Qle_condition. lra.
  - repeat split; try lia; try discriminate. apply Qabs_Qle_condition. lra.
Qed.

End Shift.

Section FirstShift.

Local Open Scope Q_scope.

Lemma fexp_eq (e : Z) :
  fexp Binary64.prec Binary64.emax e = Z.max (e - 53) (-1074).
Proof. reflexivity. Qed.

(** The first shift of a rounding: down to the exponent of the format. *)
Lemma shr_fexp_located (x : Q) (m e : Z) (l : location) :
  (0 <= m)%Z -> locatedQ x m l ->
  let F := fexp Binary64.prec Binary64.emax (Zdigits2 m + e) in
  let mrs := fst (shr_fexp Binary64.prec Binary64.emax m e l) in
  let e' := snd (shr_fexp Binary64.prec Binary64.emax m e l) in
  e' = Z.max e F
  /\ (0 <= shr_m mrs < 2 ^ 53)%Z
  /\ locatedQ (x * pow2 (e - e')) (shr_m mrs) (loc_of_shr_record mrs)
  /\ ((F <= e)%Z -> shr_m mrs = m /\ loc_of_shr_record mrs = l).
Proof.
  intros Hm H F mrs e'.
  destruct (shr_record_loc m l) as [Em El].
  assert (Hx : x < pow2 (Zdigits2 m)).
  { destruct (locatedQ_range _ _ _ H) as [_ Hhi].
    destruct (Z.eq_dec m 0) as [-> | Hne].
    - change (pow2 (Zdigits2 0)) with 1. change (inject_Z 0) with 0 in Hhi.
      lra.
    - destruct (Zdigits2_bounds m ltac:(lia)) as [Hd [_ Hlt]].
      assert (Hle : (m + 1 <= 2 ^ Zdigits2 m)%Z) by lia.
      rewrite Zle_Qle, inject_Z_plus, pow2_Z in Hle by lia.
      change (inject_Z 1) with 1 in Hle. lra. }
  assert (HF : (Zdigits2 m + e - 53 <= F /\ -1074 <= F)%Z).
  { unfold F. rewrite fexp_eq. lia. }
  assert (Hbound : forall m' : Z,
            (Z.max e F = e')%Z ->
            inject_Z m' <= x * pow2 (e - e') -> (m' < 2 ^ 53)%Z).
  { intros m' He' Hle.
    rewrite Zlt_Qlt, pow2_Z by lia.
    eapply Qle_lt_trans; [exact Hle |].
    assert (Hp : pow2 (Zdigits2 m) * pow2 (e - e') <= pow2 53).
    { rewrite <- pow2_add. apply pow2_le. lia. }
    pose proof (pow2_pos (e - e')) as Hpos.
    assert (x * pow2 (e - e') < pow2 (Zdigits2 m) * pow2 (e - e')).
    { apply Qmult_lt_compat_r; assumption. }
    lra. }
  unfold mrs, e', shr_fexp, shr. fold F.
  destruct (F - e)%Z as [| p | p] eqn:Ek; cbn [fst snd].
  - assert (Ee : Z.max e F = e) by lia.
    assert (L : locatedQ (x * pow2 (e - e)) m l).
    { eapply locatedQ_eq; [| exact H].
      rewrite Z.sub_diag. change (pow2 0) with 1. ring. }
    rewrite Em, El. repeat split; try lia; try exact L.
    apply (Hbound m);
      [unfold e', shr_fexp, shr; fold F; rewrite Ek; exact Ee |].
    unfold e', shr_fexp, shr; fold F; rewrite Ek; cbn [snd].
    apply (locatedQ_range _ _ _ L).
  - assert (Ee : Z.max e F = (e + Zpos p)%Z) by lia.
    destruct (iter_pos_shr_located p x (shr_record_of_loc m l)) as [H1 L1].
    { rewrite Em. exact Hm. }
    { rewrite Em, El. exact H. }
    assert (L : locatedQ (x * pow2 (e - (e + Zpos p)))
                  (shr_m (SpecFloat.iter_pos shr_1 p (shr_record_of_loc m l)))
                  (loc_of_shr_record
                     (SpecFloat.iter_pos shr_1 p (shr_record_of_loc m l)))).
    { eapply locatedQ_eq; [| exact L1].
      replace (e - (e + Zpos p))%Z with (- Zpos p)%Z by lia. reflexivity. }
    repeat split; try lia; try exact L.
    + apply Hbound;
        [unfold e', shr_fexp, shr; fold F; rewrite Ek; exact Ee |].
      unfold e', shr_fexp, shr; fold F; rewrite Ek; cbn [snd].
      apply (locatedQ_range _ _ _ L).
  - assert (Ee : Z.max e F = e) by lia.
    assert (L : locatedQ (x * pow2 (e - e)) m l).
    { eapply locatedQ_eq; [| exact H].
      rewrite Z.sub_diag. change (pow2 0) with 1. ring. }
    rewrite Em, El. repeat split; try lia; try exact L.
    apply (Hbound m);
      [unfold e', shr_fexp, shr; fold F; rewrite Ek; exact Ee |].
    unfold e', shr_fexp, shr; fold F; rewrite Ek; cbn [snd].
    apply (locatedQ_range _ _ _ L).
Qed.

End FirstShift.

Section RoundToNearest.

Local Open Scope Q_scope.

(** The second shift of a rounding: one place when rounding up reached
    [2^53], none otherwise. *)
Lemma shr_fexp_exact (m e : Z) :
  (0 <= m <= 2 ^ 53)%Z -> (-1074 <= e)%Z ->
  let mrs := fst (shr_fexp Binary64.prec Binary64.emax m e loc_Exact) in
  let e' := snd (shr_fexp Binary64.prec Binary64.emax m e loc_Exact) in
  (0 <= shr_m mrs)%Z
  /\ inject_Z (shr_m mrs) * pow2 e' == inject_Z m * pow2 e
  /\ (e' <= e + 1)%Z.
Proof.
  intros [Hlo Hhi] He mrs e'. unfold mrs, e', shr_fexp, shr.
  destruct (Z.eq_dec m (2 ^ 53)) as [-> | Hne].
  - rewrite Zdigits2_pow2 by lia. rewrite fexp_eq.
    replace (Z.max (53 + 1 + e - 53) (-1074) - e)%Z with 1%Z by lia.
    cbn [fst snd SpecFloat.iter_pos shr_record_of_loc].
    change (2 ^ 53)%Z with (Zpos (xO (2 ^ 52)%positive)).
    cbn [shr_1 shr_m orb]. split; [lia |]. split; [| lia].
    rewrite pow2_succ.
    change (inject_Z (Zpos (xO (2 ^ 52)%positive)))
      with (2 * inject_Z (Zpos (2 ^ 52)%positive)).
    ring.
  - assert (Hd : (Zdigits2 m <= 53)%Z) by (apply Zdigits2_le; lia).
    rewrite fexp_eq.
    destruct (Z.max (Zdigits2 m + e - 53) (-1074) - e)%Z as [| p | p] eqn:Ek;
      try lia; cbn [fst snd shr_record_of_loc shr_m];
      split; try lia; split; try lia; reflexivity.
Qed.

(** What [binary_round_aux] returns for the number [x * 2^e], known to lie
    at [l] between [m] and [m + 1] in units of [2^e]. *)
Lemma binary_round_aux_spec (s : bool) (m e : Z) (l : location) (x : Q) :
  (0 <= m)%Z -> locatedQ x m l ->
  let F := fexp Binary64.prec Binary64.emax (Zdigits2 m + e) in
  let r := binary_round_aux Binary64.prec Binary64.emax s m e l in
  l = loc_Exact \/ (e <= F)%Z ->
  r = S754_infinity s
  \/ (Binary64.isFinite r = true
      /\ (Binary64.magnitude r == 0 \/ Binary64.negative r = s)
      /\ (Binary64.magnitude r == x * pow2 e
          \/ ((e <= F)%Z
              /\ Qabs (Binary64.magnitude r - x * pow2 e)
                 <= (1 # 2) * pow2 F))).
Proof.
  intros Hm H F r Hpre.
  destruct (shr_fexp_located x m e l Hm H) as (He' & Hm' & L' & Hsame).
  fold F in He', Hsame.
  unfold r, binary_round_aux.
  destruct (shr_fexp Binary64.prec Binary64.emax m e l) as [mrs' e'] eqn:E1.
  cbn [fst snd] in He', Hm', L', Hsame.
  set (m'' := round_nearest_even (shr_m mrs') (loc_of_shr_record mrs')).
  destruct (round_nearest_even_near _ _ _ (proj1 Hm') L')
    as (Hr & Hnear & Hexact).
  fold m'' in Hr, Hnear, Hexact.
  assert (HF : (-1074 <= F)%Z) by (unfold F; rewrite fexp_eq; lia).
  destruct (shr_fexp_exact m'' e') as (Hm3 & Hval & _); [lia | lia |].
  destruct (shr_fexp Binary64.prec Binary64.emax m'' e' loc_Exact)
    as [mrs'' e''] eqn:E2.
  cbn [fst snd] in Hm3, Hval.
  (* the number the result stands for *)
  assert (Herr :
            inject_Z m'' * pow2 e' == x * pow2 e
            \/ ((e <= F)%Z
                /\ Qabs (inject_Z m'' * pow2 e' - x * pow2 e)
                   <= (1 # 2) * pow2 F)).
  { destruct (Z_le_gt_dec F e) as [Hle | Hgt].
    - assert (Ee : e' = e) by lia.
      destruct (Hsame Hle) as [Em El].
      destruct Hpre as [-> | Hpre].
      + left. rewrite Ee. rewrite Hexact by exact El.
        rewrite Em. cbn [locatedQ] in H. rewrite H. reflexivity.
      + right. split; [exact Hpre |].
        assert (EF : F = e) by lia. rewrite Ee, EF.
        rewrite Ee, Z.sub_diag in Hnear. change (pow2 0) with 1 in Hnear.
        pose proof (pow2_pos e) as Hp.
        setoid_replace (inject_Z m'' * pow2 e - x * pow2 e)
          with ((inject_Z m'' - x * 1) * pow2 e) by ring.
        rewrite Qabs_Qmult, (Qabs_pos (pow2 e)) by lra.
        apply Qmult_le_compat_r; lra.
    - right. split; [lia |]. assert (Ee : e' = F) by lia.
      rewrite Ee in *.
      pose proof (pow2_pos F) as Hp.
      assert (Ex : x * pow2 e == x * pow2 (e - F) * pow2 F).
      { rewrite <- Qmult_assoc, <- pow2_add.
        replace (e - F + F)%Z with e by lia. reflexivity. }
      rewrite Ex.
      setoid_replace (inject_Z m'' * pow2 F - x * pow2 (e - F) * pow2 F)
        with ((inject_Z m'' - x * pow2 (e - F)) * pow2 F) by ring.
      rewrite Qabs_Qmult, (Qabs_pos (pow2 F)) by lra.
      apply Qmult_le_compat_r; lra. }
  destruct (shr_m mrs'') as [| mf | mf] eqn:Emf; [| | lia].
  - right. cbn [Binary64.isFinite Binary64.magnitude Binary64.negative].
    split; [reflexivity |]. split; [left; reflexivity |].
    change (inject_Z 0) with 0 in Hval.
    assert (E0 : inject_Z m'' * pow2 e' == 0) by lra.
    rewrite E0 in Herr. exact Herr.
  - destruct (e'' <=? Binary64.emax - Binary64.prec)%Z; [| now left].
    right. cbn [Binary64.isFinite Binary64.magnitude Binary64.negative].
    split; [reflexivity |]. split; [right; reflexivity |].
    rewrite Hval. exact Herr.
Qed.

End RoundToNearest.

Section Model.

Local Open Scope Q_scope.

Lemma epsilon_pos : 0 < epsilon.
Proof. apply pow2_pos. Qed.

Lemma tiny_pos : 0 < tiny.
Proof. apply pow2_pos. Qed.

Lemma near_exact (r : spec_float) (v : Q) : Binary64.value r == v -> near r v.
Proof.
  intros E. unfold near.
  setoid_replace (Binary64.value r - v) with 0 by lra.
  pose proof epsilon_pos. pose proof tiny_pos.
  pose proof (Qabs_nonneg v).
  change (Qabs 0) with 0.
  assert (0 <= epsilon * Qabs v) by (apply Qmult_le_0_compat; lra).
  lra.
Qed.

Lemma near_eq (r : spec_float) (v w : Q) : v == w -> near r v -> near r w.
Proof. unfold near. intros E H. rewrite <- E. exact H. Qed.

(** Half a unit in the last place is within the relative error of the
    format, or below the smallest double. *)
Lemma half_ulp_bound (m e : Z) (x : Q) :
  (0 <= m)%Z -> inject_Z m <= x ->
  let F := fexp Binary64.prec Binary64.emax (Zdigits2 m + e) in
  (e <= F)%Z ->
  (1 # 2) * pow2 F <= epsilon * (x * pow2 e) + tiny.
Proof.
  intros Hm Hx F HF.
  pose proof epsilon_pos as Hu. pose proof tiny_pos as Ht.
  pose proof (pow2_pos e) as Hpe.
  assert (Hx0 : 0 <= x).
  { assert (0 <= inject_Z m)
      by (change 0 with (inject_Z 0); rewrite <- Zle_Qle; exact Hm).
    lra. }
  assert (Hv : 0 <= epsilon * (x * pow2 e)).
  { apply Qmult_le_0_compat; [lra |]. apply Qmult_le_0_compat; lra. }
  unfold F in *. rewrite fexp_eq in *.
  destruct (Z_le_gt_dec (Zdigits2 m + e - 53) (-1074)) as [Hsub | Hnorm].
  - rewrite Z.max_r by lia.
    assert (E : (1 # 2) * pow2 (-1074) == tiny) by reflexivity.
    lra.
  - rewrite Z.max_l in * by lia.
    assert (Hm0 : (0 < m)%Z).
    { destruct (Z.eq_dec m 0) as [-> | Hne]; [cbn in HF; lia | lia]. }
    destruct (Zdigits2_bounds m Hm0) as [Hd [Hlo _]].
    rewrite Zle_Qle, pow2_Z in Hlo by lia.
    assert (E : (1 # 2) * pow2 (Zdigits2 m + e - 53)
                == epsilon * (pow2 (Zdigits2 m - 1) * pow2 e)).
    { unfold epsilon. rewrite <- !pow2_add.
      replace (Zdigits2 m + e - 53)%Z
        with (1 + (-53 + (Zdigits2 m - 1 + e)))%Z by lia.
      rewrite (pow2_add 1). change (pow2 1) with 2. ring. }
    rewrite E.
    assert (pow2 (Zdigits2 m - 1) * pow2 e <= x * pow2 e).
    { apply Qmult_le_compat_r; lra. }
    assert (epsilon * (pow2 (Zdigits2 m - 1) * pow2 e)
            <= epsilon * (x * pow2 e)).
    { apply Qmult_le_l; lra. }
    lra.
Qed.

Lemma Qabs_signed (s : bool) (q : Q) : Qabs (signed s q) == Qabs q.
Proof. destruct s; cbn [signed]; [apply Qabs_opp | reflexivity]. Qed.

(** [binary_round_aux], when it does not overflow, returns the number it
    is given up to one rounding. *)
Lemma binary_round_aux_near (s : bool) (m e : Z) (l : location) (x : Q) :
  (0 <= m)%Z -> locatedQ x m l ->
  l = loc_Exact
  \/ (e <= fexp Binary64.prec Binary64.emax (Zdigits2 m + e))%Z ->
  let r := binary_round_aux Binary64.prec Binary64.emax s m e l in
  Binary64.isFinite r = true ->
  near r (signed s (x * pow2 e)).
Proof.
  intros Hm H Hpre r Hfin.
  destruct (binary_round_aux_spec s m e l x Hm H Hpre)
    as [Hinf | (_ & Hsign & Herr)].
  { fold r in Hinf. rewrite Hinf in Hfin. discriminate. }
  fold r in Hsign, Herr.
  destruct (locatedQ_range _ _ _ H) as [Hx _].
  pose proof (pow2_pos e) as Hpe.
  assert (Hx0 : 0 <= x).
  { assert (0 <= inject_Z m)
      by (change 0 with (inject_Z 0); rewrite <- Zle_Qle; exact Hm).
    lra. }
  assert (Hv0 : 0 <= x * pow2 e) by (apply Qmult_le_0_compat; lra).
  assert (Hval : Binary64.value r == signed s (Binary64.magnitude r)).
  { unfold Binary64.value. destruct Hsign as [E0 | ->]; [| reflexivity].
    destruct (Binary64.negative r), s; cbn [signed]; lra. }
  unfold near. rewrite Hval, Qabs_signed.
  setoid_replace (signed s (Binary64.magnitude r) - signed s (x * pow2 e))
    with (signed s (Binary64.magnitude r - x * pow2 e))
    by (destruct s; cbn [signed]; ring).
  rewrite Qabs_signed, (Qabs_pos (x * pow2 e)) by exact Hv0.
  pose proof epsilon_pos as Hu. pose proof tiny_pos as Ht.
  assert (Hv : 0 <= epsilon * (x * pow2 e)).
  { apply Qmult_le_0_compat; lra. }
  destruct Herr as [E | [Hle Herr]].
  - setoid_replace (Binary64.magnitude r - x * pow2 e) with 0 by lra.
    change (Qabs 0) with 0. lra.
  - pose proof (half_ulp_bound m e x Hm Hx Hle). lra.
Qed.

End Model.

Section Operations.

Local Open Scope Q_scope.

Lemma iter_xO (m d : positive) :
  Zpos (Pos.iter xO m d) = (Zpos m * 2 ^ Zpos d)%Z.
Proof.
  induction d as [| d IH] using Pos.peano_ind.
  - cbn [Pos.iter]. rewrite Pos2Z.inj_xO. lia.
  - rewrite Pos.iter_succ, Pos2Z.inj_xO, IH, Pos2Z.inj_succ.
    rewrite Z.pow_succ_r by lia. lia.
Qed.

Lemma shl_align_value (m : positive) (e e' : Z) :
  inject_Z (Zpos (fst (shl_align m e e'))) * pow2 (snd (shl_align m e e'))
  == inject_Z (Zpos m) * pow2 e
  /\ snd (shl_align m e e') = Z.min e e'.
Proof.
  unfold shl_align. destruct (e' - e)%Z as [| p | p] eqn:Ek; cbn [fst snd].
  - split; [reflexivity | lia].
  - split; [reflexivity | lia].
  - split; [| lia]. rewrite iter_xO, inject_Z_mult, pow2_Z by lia.
    rewrite <- Qmult_assoc, <- pow2_add.
    replace (Zpos p + e')%Z with e by lia. reflexivity.
Qed.

Lemma value_finite (s : bool) (m : positive) (e : Z) :
  Binary64.value (S754_finite s m e)
  == signed s (inject_Z (Zpos m) * pow2 e).
Proof. destruct s; reflexivity. Qed.

Lemma value_zero (s : bool) : Binary64.value (S754_zero s) == 0.
Proof. destruct s; reflexivity. Qed.

Lemma binary_round_near (s : bool) (m : positive) (e : Z) :
  let r := binary_round Binary64.prec Binary64.emax s m e in
  Binary64.isFinite r = true ->
  near r (signed s (inject_Z (Zpos m) * pow2 e)).
Proof.
  intros r Hfin. unfold r, binary_round in *.
  destruct (shl_align_value m e
              (fexp Binary64.prec Binary64.emax (Zpos (digits2_pos m) + e)))
    as [Hv _].
  destruct (shl_align m e
              (fexp Binary64.prec Binary64.emax (Zpos (digits2_pos m) + e)))
    as [mz ez].
  cbn [fst snd] in Hv.
  eapply near_eq;
    [| apply (binary_round_aux_near s (Zpos mz) ez loc_Exact
                (inject_Z (Zpos mz)));
       [lia | reflexivity | now left | exact Hfin]].
  destruct s; cbn [signed]; lra.
Qed.

Lemma binary_normalize_near (M e : Z) (szero : bool) :
  let r := binary_normalize Binary64.prec Binary64.emax M e szero in
  Binary64.isFinite r = true ->
  near r (inject_Z M * pow2 e).
Proof.
  intros r Hfin. unfold r, binary_normalize in *.
  destruct M as [| m | m].
  - apply near_exact. rewrite value_zero. change (inject_Z 0) with 0. ring.
  - apply (binary_round_near false m e Hfin).
  - eapply near_eq; [| apply (binary_round_near true m e Hfin)].
    cbn [signed]. change (inject_Z (Zneg m)) with (- inject_Z (Zpos m)). ring.
Qed.

Lemma cond_Zopp_value (s : bool) (m : Z) :
  inject_Z (cond_Zopp s m) == signed s (inject_Z m).
Proof.
  destruct s; cbn [cond_Zopp signed]; [rewrite inject_Z_opp |]; reflexivity.
Qed.

Lemma aligned_value (s : bool) (m : positive) (e ez : Z) :
  (ez <= e)%Z ->
  inject_Z (cond_Zopp s (Zpos (fst (shl_align m e ez)))) * pow2 ez
  == Binary64.value (S754_finite s m e).
Proof.
  intros Hle. destruct (shl_align_value m e ez) as [Hv Hs].
  rewrite Z.min_r in Hs by exact Hle. rewrite Hs in Hv.
  rewrite cond_Zopp_value, value_finite.
  destruct s; cbn [signed]; lra.
Qed.

(** [a + b] *)
Lemma add_near (x y : spec_float) :
  Binary64.isFinite x = true -> Binary64.isFinite y = true ->
  Binary64.isFinite (Binary64.add x y) = true ->
  near (Binary64.add x y) (Binary64.value x + Binary64.value y).
Proof.
  destruct x as [sx | sx | | sx mx ex]; try discriminate;
    destruct y as [sy | sy | | sy my ey]; try discriminate;
    intros _ _ Hfin.
  - apply near_exact.
    unfold Binary64.add, SFadd. rewrite !value_zero.
    destruct sx, sy; cbn; reflexivity.
  - apply near_exact. unfold Binary64.add, SFadd. rewrite value_zero. ring.
  - apply near_exact. unfold Binary64.add, SFadd. rewrite value_zero. ring.
  - unfold Binary64.add, SFadd in *.
    eapply near_eq; [| apply binary_normalize_near; exact Hfin].
    rewrite inject_Z_plus, Qmult_plus_distr_l.
    rewrite !aligned_value by lia. reflexivity.
Qed.

(** [a - b] *)
Lemma sub_near (x y : spec_float) :
  Binary64.isFinite x = true -> Binary64.isFinite y = true ->
  Binary64.isFinite (Binary64.sub x y) = true ->
  near (Binary64.sub x y) (Binary64.value x - Binary64.value y).
Proof.
  destruct x as [sx | sx | | sx mx ex]; try discriminate;
    destruct y as [sy | sy | | sy my ey]; try discriminate;
    intros _ _ Hfin.
  - apply near_exact.
    unfold Binary64.sub, SFsub. rewrite !value_zero.
    destruct sx, sy; cbn; reflexivity.
  - apply near_exact. unfold Binary64.sub, SFsub.
    rewrite value_zero, !value_finite. destruct sy; cbn [negb signed]; ring.
  - apply near_exact. unfold Binary64.sub, SFsub. rewrite value_zero. ring.
  - unfold Binary64.sub, SFsub in *.
    eapply near_eq; [| apply binary_normalize_near; exact Hfin].
    unfold Z.sub at 1.
    rewrite inject_Z_plus, inject_Z_opp, Qmult_plus_distr_l.
    setoid_replace
      (- inject_Z (cond_Zopp sy (Zpos (fst (shl_align my ey (Z.min ex ey)))))
       * pow2 (Z.min ex ey))
      with (- (inject_Z
                 (cond_Zopp sy (Zpos (fst (shl_align my ey (Z.min ex ey)))))
               * pow2 (Z.min ex ey))) by ring.
    rewrite !aligned_value by lia. reflexivity.
Qed.

Lemma signed_mult (s t : bool) (a b : Q) :
  signed s a * signed t b == signed (xorb s t) (a * b).
Proof. destruct s, t; cbn [signed xorb]; ring. Qed.

(** [a * b] *)
Lemma mul_near (x y : spec_float) :
  Binary64.isFinite x = true -> Binary64.isFinite y = true ->
  Binary64.isFinite (Binary64.mul x y) = true ->
  near (Binary64.mul x y) (Binary64.value x * Binary64.value y).
Proof.
  destruct x as [sx | sx | | sx mx ex]; try discriminate;
    destruct y as [sy | sy | | sy my ey]; try discriminate;
    intros _ _ Hfin.
  - apply near_exact. unfold Binary64.mul, SFmul. rewrite !value_zero. ring.
  - apply near_exact. unfold Binary64.mul, SFmul. rewrite !value_zero. ring.
  - apply near_exact. unfold Binary64.mul, SFmul. rewrite !value_zero. ring.
  - unfold Binary64.mul, SFmul in *.
    eapply near_eq;
      [| apply (binary_round_aux_near (xorb sx sy) (Zpos (mx * my))
                  (ex + ey) loc_Exact (inject_Z (Zpos (mx * my))));
         [lia | reflexivity | now left | exact Hfin]].
    rewrite !value_finite, signed_mult, Pos2Z.inj_mul, inject_Z_mult.
    destruct (xorb sx sy); cbn [signed]; rewrite pow2_add; ring.
Qed.

End Operations.

Section Division.

Local Open Scope Q_scope.

Lemma fraction_compare (r D : Z) :
  (0 < D)%Z ->
  let f := inject_Z r / inject_Z D in
  ((2 * r < D)%Z -> f < 1 # 2)
  /\ ((2 * r = D)%Z -> f == 1 # 2)
  /\ ((D < 2 * r)%Z -> 1 # 2 < f)
  /\ ((0 < r)%Z -> 0 < f)
  /\ ((r < D)%Z -> f < 1)
  /\ (r = 0%Z -> f == 0).
Proof.
  intros HD f.
  assert (HDq : 0 < inject_Z D).
  { change 0 with (inject_Z 0). rewrite <- Zlt_Qlt. exact HD. }
  assert (E2 : forall z, inject_Z (2 * z) == 2 * inject_Z z).
  { intros z. rewrite inject_Z_mult. reflexivity. }
  repeat split; unfold f.
  - intros H. apply Qlt_shift_div_r; [exact HDq |].
    rewrite Zlt_Qlt, E2 in H. lra.
  - intros H. apply (f_equal inject_Z) in H. rewrite inject_Z_mult in H.
    change (inject_Z 2) with 2 in H.
    assert (H' : 2 * inject_Z r == inject_Z D) by (rewrite H; reflexivity).
    field_simplify_eq; [lra | lra].
  - intros H. apply Qlt_shift_div_l; [exact HDq |].
    rewrite Zlt_Qlt, E2 in H. lra.
  - intros H. apply Qlt_shift_div_l; [exact HDq |].
    rewrite Zlt_Qlt in H. change (inject_Z 0) with 0 in H. lra.
  - intros H. apply Qlt_shift_div_r; [exact HDq |].
    rewrite Zlt_Qlt in H. lra.
  - intros ->. change (inject_Z 0) with 0. field. lra.
Qed.

(** The location computed from a remainder is the place of the quotient. *)
Lemma new_location_located (D r q : Z) :
  (0 < D)%Z -> (0 <= r < D)%Z ->
  locatedQ (inject_Z q + inject_Z r / inject_Z D) q (new_location D r).
Proof.
  intros HD Hr.
  pose proof (fraction_compare r D HD) as H. cbv zeta in H.
  set (f := inject_Z r / inject_Z D) in *.
  destruct H as (Hlt & Heq & Hgt & Hpos & Hone & H0).
  unfold new_location, new_location_even, new_location_odd.
  assert (Hz : forall A (u v : A),
             (r = 0%Z -> (if (r =? 0)%Z then u else v) = u)
             /\ (r <> 0%Z -> (if (r =? 0)%Z then u else v) = v)).
  { intros A u v. destruct (Z.eqb_spec r 0); split; intros; congruence. }
  destruct (Z.eq_dec r 0) as [Hr0 | Hne].
  - specialize (H0 Hr0).
    destruct (Z.even D);
      match goal with
      | |- locatedQ _ _ (if _ then ?u else ?v) =>
          change (locatedQ (inject_Z q + f) q (if (r =? 0)%Z then u else v));
          rewrite (proj1 (Hz _ u v) Hr0)
      end; cbn [locatedQ]; lra.
  - assert (Hr0 : (0 < r)%Z) by lia.
    specialize (Hpos Hr0). specialize (Hone (proj2 Hr)).
    destruct (Z.even D) eqn:Ev;
      match goal with
      | |- locatedQ _ _ (if _ then ?u else ?v) =>
          change (locatedQ (inject_Z q + f) q (if (r =? 0)%Z then u else v));
          rewrite (proj2 (Hz _ u v) Hne)
      end.
    + change (locatedQ (inject_Z q + f) q (loc_Inexact (2 * r ?= D)%Z)).
      destruct (Z.compare_spec (2 * r) D) as [E | E | E]; cbn [locatedQ].
      * specialize (Heq E). lra.
      * specialize (Hlt E). lra.
      * specialize (Hgt E). lra.
    + assert (Hodd : (2 * r <> D)%Z).
      { intros E. rewrite <- E, Z.even_mul in Ev. discriminate. }
      change (locatedQ (inject_Z q + f) q
                (loc_Inexact match (2 * r + 1 ?= D)%Z with
                             | Gt => Gt
                             | _ => Lt
                             end)).
      destruct (Z.compare_spec (2 * r + 1) D) as [E | E | E]; cbn [locatedQ].
      * assert (E' : (2 * r < D)%Z) by lia. specialize (Hlt E'). lra.
      * assert (E' : (2 * r < D)%Z) by lia. specialize (Hlt E'). lra.
      * assert (E' : (D < 2 * r)%Z) by lia. specialize (Hgt E'). lra.
Qed.

Lemma Zdigits2_nonneg (m : Z) : (0 <= Zdigits2 m)%Z.
Proof. destruct m; cbn; lia. Qed.

Lemma Zdigits2_ge (m t : Z) :
  (2 ^ (t - 1) <= m)%Z -> (1 <= t)%Z -> (t <= Zdigits2 m)%Z.
Proof.
  intros Hlo Ht.
  assert (Hp : (0 < 2 ^ (t - 1))%Z) by (apply Z.pow_pos_nonneg; lia).
  destruct (Zdigits2_bounds m ltac:(lia)) as [Hd [_ Hhi]].
  assert (H : (2 ^ (t - 1) < 2 ^ Zdigits2 m)%Z) by lia.
  apply Z.pow_lt_mono_r_iff in H; lia.
Qed.

(** What the division of two mantissas hands to the rounding. *)
Lemma div_core_spec (mx : positive) (ex : Z) (my : positive) (ey : Z) :
  let c := SFdiv_core_binary Binary64.prec Binary64.emax
             (Zpos mx) ex (Zpos my) ey in
  let q := fst (fst c) in
  let e' := snd (fst c) in
  let l := snd c in
  exists x : Q,
    (0 <= q)%Z
    /\ locatedQ x q l
    /\ (e' <= fexp Binary64.prec Binary64.emax (Zdigits2 q + e'))%Z
    /\ x * pow2 e'
       == (inject_Z (Zpos mx) * pow2 ex) / (inject_Z (Zpos my) * pow2 ey).
Proof.
  intros c q e' l. subst l e' q c. unfold SFdiv_core_binary.
  set (d1 := Zdigits2 (Zpos mx)). set (d2 := Zdigits2 (Zpos my)).
  set (E := (d1 + ex - (d2 + ey))%Z).
  set (e' := Z.min (fexp Binary64.prec Binary64.emax E) (ex - ey)).
  set (s := (ex - ey - e')%Z).
  assert (Hs : (0 <= s)%Z) by (unfold s, e'; lia).
  set (m' := match s with
             | Zpos _ => Z.shiftl (Zpos mx) s
             | Z0 => Zpos mx
             | Zneg _ => 0%Z
             end).
  assert (Hm' : m' = (Zpos mx * 2 ^ s)%Z).
  { unfold m'. destruct s as [| p | p]; [cbn; lia | | lia].
    apply Z.shiftl_mul_pow2. lia. }
  clearbody m'.
  pose proof (Z_div_mod m' (Zpos my) ltac:(lia)) as Hdiv.
  destruct (Z.div_eucl m' (Zpos my)) as [q r]. destruct Hdiv as [Hq Hr].
  cbn [fst snd].
  assert (H2s : (0 < 2 ^ s)%Z) by (apply Z.pow_pos_nonneg; lia).
  assert (Hq0 : (0 <= q)%Z) by nia.
  exists (inject_Z q + inject_Z r / inject_Z (Zpos my)).
  split; [exact Hq0 |].
  split; [apply new_location_located; lia |].
  split.
  - (* the quotient has digits enough *)
    assert (Hdig : (d1 + s - d2 <= Zdigits2 q)%Z).
    { destruct (Z_le_gt_dec (d1 + s - d2) 0) as [Ht | Ht].
      - pose proof (Zdigits2_nonneg q). lia.
      - apply Zdigits2_ge; [| lia].
        destruct (Zdigits2_bounds (Zpos mx) ltac:(lia)) as [Hd1 [Hlo1 _]].
        destruct (Zdigits2_bounds (Zpos my) ltac:(lia)) as [Hd2 [_ Hhi2]].
        fold d1 in Hd1, Hlo1. fold d2 in Hd2, Hhi2.
        assert (Hpow : (2 ^ (d1 - 1 + s)
                        = 2 ^ (d1 + s - d2 - 1) * 2 ^ d2)%Z).
        { rewrite <- Z.pow_add_r by lia. f_equal. lia. }
        assert (Hlo : (2 ^ (d1 - 1 + s) <= m')%Z).
        { rewrite Hm', Z.pow_add_r by lia. nia. }
        assert (Hp : (0 < 2 ^ (d1 + s - d2 - 1))%Z)
          by (apply Z.pow_pos_nonneg; lia).
        nia. }
    rewrite !fexp_eq. unfold e' at 1. rewrite fexp_eq. unfold E, s in *. lia.
  - assert (Hmy : 0 < inject_Z (Zpos my)).
    { change 0 with (inject_Z 0). rewrite <- Zlt_Qlt. lia. }
    pose proof (pow2_pos ey) as Hpe.
    assert (Em : inject_Z m' == inject_Z (Zpos mx) * pow2 s).
    { rewrite Hm', inject_Z_mult, pow2_Z by lia. reflexivity. }
    assert (Eq' : inject_Z m'
                  == inject_Z (Zpos my) * inject_Z q + inject_Z r).
    { rewrite Hq, inject_Z_plus, inject_Z_mult. reflexivity. }
    assert (Ep : pow2 ex == pow2 s * pow2 e' * pow2 ey).
    { rewrite <- !pow2_add. unfold s. 
      replace (ex - ey - e' + e' + ey)%Z with ex by lia. reflexivity. }
    rewrite Ep. field_simplify_eq; [| split; lra].
    transitivity (inject_Z m' * pow2 e'); [rewrite Eq' | rewrite Em]; ring.
Qed.

End Division.

Section Quotient.

Local Open Scope Q_scope.

Lemma signed_div (s t : bool) (a b : Q) :
  ~ b == 0 -> signed s a / signed t b == signed (xorb s t) (a / b).
Proof. intros Hb. destruct s, t; cbn [signed xorb]; field; lra. Qed.

(** [a / b] *)
Lemma div_near (x : spec_float) (sy : bool) (my : positive) (ey : Z) :
  Binary64.isFinite x = true ->
  Binary64.isFinite (Binary64.div x (S754_finite sy my ey)) = true ->
  near (Binary64.div x (S754_finite sy my ey))
       (Binary64.value x / Binary64.value (S754_finite sy my ey)).
Proof.
  assert (Hy : 0 < inject_Z (Zpos my) * pow2 ey).
  { apply Qmult_lt_0_compat; [| apply pow2_pos].
    change 0 with (inject_Z 0). rewrite <- Zlt_Qlt. lia. }
  destruct x as [sx | sx | | sx mx ex]; try discriminate; intros _ Hfin.
  - apply near_exact. unfold Binary64.div, SFdiv.
    rewrite !value_zero, value_finite.
    unfold Qdiv. ring.
  - unfold Binary64.div, SFdiv in *.
    destruct (div_core_spec mx ex my ey) as (x & Hq & L & Hpre & Hv).
    destruct (SFdiv_core_binary Binary64.prec Binary64.emax
                (Zpos mx) ex (Zpos my) ey) as [[mz ez] lz].
    cbn [fst snd] in Hq, L, Hpre, Hv.
    eapply near_eq;
      [| apply (binary_round_aux_near (xorb sx sy) mz ez lz x Hq L
                  (or_intror Hpre) Hfin)].
    rewrite !value_finite, signed_div by lra.
    destruct (xorb sx sy); cbn [signed]; rewrite Hv; reflexivity.
Qed.

End Quotient.

Section Overflow.

Local Open Scope Q_scope.

(** A rounding overflows only from [2^1023] on. *)
Lemma binary_round_aux_finite (s : bool) (m e : Z) (l : location) (x : Q) :
  (0 <= m)%Z -> locatedQ x m l ->
  (e <= fexp Binary64.prec Binary64.emax (Zdigits2 m + e))%Z ->
  x * pow2 e < pow2 1023 ->
  Binary64.isFinite (binary_round_aux Binary64.prec Binary64.emax s m e l)
  = true.
Proof.
  intros Hm H Hpre Hlt.
  set (F := fexp Binary64.prec Binary64.emax (Zdigits2 m + e)) in *.
  destruct (shr_fexp_located x m e l Hm H) as (He' & Hm' & L' & _).
  fold F in He'.
  unfold binary_round_aux.
  destruct (shr_fexp Binary64.prec Binary64.emax m e l) as [mrs' e'] eqn:E1.
  cbn [fst snd] in He', Hm', L'.
  set (m'' := round_nearest_even (shr_m mrs') (loc_of_shr_record mrs')).
  destruct (round_nearest_even_near _ _ _ (proj1 Hm') L') as (Hr & _ & _).
  fold m'' in Hr.
  assert (HF : (-1074 <= F)%Z) by (unfold F; rewrite fexp_eq; lia).
  destruct (shr_fexp_exact m'' e') as (Hm3 & _ & He2); [lia | lia |].
  destruct (shr_fexp Binary64.prec Binary64.emax m'' e' loc_Exact)
    as [mrs'' e''] eqn:E2.
  cbn [fst snd] in Hm3, He2.
  assert (HF970 : (F <= 970)%Z).
  { destruct (Z_le_gt_dec F 970) as [Hle | Hgt]; [exact Hle | exfalso].
    assert (EF : F = (Zdigits2 m + e - 53)%Z)
      by (unfold F in *; rewrite fexp_eq in *; lia).
    assert (Hm0 : (0 < m)%Z).
    { destruct (Z.eq_dec m 0) as [-> | Hne]; [cbn in EF; lia | lia]. }
    destruct (Zdigits2_bounds m Hm0) as [Hd [Hlo _]].
    rewrite Zle_Qle, pow2_Z in Hlo by lia.
    destruct (locatedQ_range _ _ _ H) as [Hx _].
    pose proof (pow2_pos e) as Hpe.
    assert (H1 : pow2 (Zdigits2 m - 1) * pow2 e <= x * pow2 e).
    { apply Qmult_le_compat_r; lra. }
    rewrite <- pow2_add in H1.
    assert (H2 : pow2 1023 <= pow2 (Zdigits2 m - 1 + e)).
    { apply pow2_le. lia. }
    lra. }
  destruct (shr_m mrs'') as [| mf | mf]; [reflexivity | | lia].
  destruct (Z.leb_spec e'' (Binary64.emax - Binary64.prec)) as [Hle | Hgt];
    [reflexivity |].
  unfold Binary64.emax, Binary64.prec in Hgt. lia.
Qed.

Lemma fexp_le (a b : Z) :
  (a <= b)%Z ->
  (fexp Binary64.prec Binary64.emax a <= fexp Binary64.prec Binary64.emax b)%Z.
Proof. intros H. rewrite !fexp_eq. lia. Qed.

Lemma binary_round_finite (s : bool) (m : positive) (e : Z) :
  inject_Z (Zpos m) * pow2 e < pow2 1023 ->
  Binary64.isFinite (binary_round Binary64.prec Binary64.emax s m e) = true.
Proof.
  intros Hlt. unfold binary_round.
  set (F := fexp Binary64.prec Binary64.emax (Zpos (digits2_pos m) + e)).
  destruct (shl_align_value m e F) as [Hv Hs].
  assert (Hdig : (Zpos (digits2_pos m) + e
                  <= Zdigits2 (Zpos (fst (shl_align m e F)))
                     + snd (shl_align m e F))%Z).
  { unfold shl_align in *. destruct (F - e)%Z as [| p | p] eqn:Ek;
      cbn [fst snd] in *; try (cbn [Zdigits2]; lia).
    rewrite iter_xO.
    destruct (digits2_pos_bounds m) as [Hlo _].
    assert (Hge : (Zpos (digits2_pos m) + Zpos p
                   <= Zdigits2 (Zpos m * 2 ^ Zpos p))%Z).
    { apply Zdigits2_ge; [| lia].
      replace (Zpos (digits2_pos m) + Zpos p - 1)%Z
        with (Zpos (digits2_pos m) - 1 + Zpos p)%Z by lia.
      rewrite Z.pow_add_r by lia.
      assert (0 < 2 ^ Zpos p)%Z by (apply Z.pow_pos_nonneg; lia).
      nia. }
    lia. }
  destruct (shl_align m e F) as [mz ez]. cbn [fst snd] in *.
  apply (binary_round_aux_finite s (Zpos mz) ez loc_Exact
           (inject_Z (Zpos mz))); [lia | reflexivity | | lra].
  apply fexp_le in Hdig. fold F in Hdig. lia.
Qed.

Lemma binary_normalize_finite (M e : Z) (szero : bool) :
  Qabs (inject_Z M * pow2 e) < pow2 1023 ->
  Binary64.isFinite (binary_normalize Binary64.prec Binary64.emax M e szero)
  = true.
Proof.
  intros Hlt. pose proof (pow2_pos e) as Hpe.
  rewrite Qabs_Qmult, (Qabs_pos (pow2 e)) in Hlt by lra.
  unfold binary_normalize. destruct M as [| m | m]; [reflexivity | |];
    apply binary_round_finite.
  - rewrite Qabs_pos in Hlt; [exact Hlt |].
    change 0 with (inject_Z 0). rewrite <- Zle_Qle. lia.
  - rewrite Qabs_neg in Hlt.
    + change (inject_Z (Zneg m)) with (- inject_Z (Zpos m)) in Hlt.
      setoid_replace (- - inject_Z (Zpos m)) with (inject_Z (Zpos m)) in Hlt
        by ring.
      exact Hlt.
    + change 0 with (inject_Z 0). rewrite <- Zle_Qle. lia.
Qed.

(** [a + b] and [a - b] are finite when the exact result is below
    [2^1023]. *)
Lemma add_finite (x y : spec_float) :
  Binary64.isFinite x = true -> Binary64.isFinite y = true ->
  Qabs (Binary64.value x + Binary64.value y) < pow2 1023 ->
  Binary64.isFinite (Binary64.add x y) = true.
Proof.
  destruct x as [sx | sx | | sx mx ex]; try discriminate;
    destruct y as [sy | sy | | sy my ey]; try discriminate;
    intros _ _ Hlt; unfold Binary64.add, SFadd.
  - destruct sx, sy; reflexivity.
  - reflexivity.
  - reflexivity.
  - apply binary_normalize_finite.
    rewrite inject_Z_plus, Qmult_plus_distr_l.
    rewrite !aligned_value by lia. exact Hlt.
Qed.

Lemma sub_finite (x y : spec_float) :
  Binary64.isFinite x = true -> Binary64.isFinite y = true ->
  Qabs (Binary64.value x - Binary64.value y) < pow2 1023 ->
  Binary64.isFinite (Binary64.sub x y) = true.
Proof.
  destruct x as [sx | sx | | sx mx ex]; try discriminate;
    destruct y as [sy | sy | | sy my ey]; try discriminate;
    intros _ _ Hlt; unfold Binary64.sub, SFsub.
  - destruct sx, sy; reflexivity.
  - reflexivity.
  - reflexivity.
  - apply binary_normalize_finite.
    unfold Z.sub at 1.
    rewrite inject_Z_plus, inject_Z_opp, Qmult_plus_distr_l.
    setoid_replace
      (- inject_Z (cond_Zopp sy (Zpos (fst (shl_align my ey (Z.min ex ey)))))
       * pow2 (Z.min ex ey))
      with (- (inject_Z
                 (cond_Zopp sy (Zpos (fst (shl_align my ey (Z.min ex ey)))))
               * pow2 (Z.min ex ey))) by ring.
    rewrite !aligned_value by lia. exact Hlt.
Qed.

(** [a / b] is finite when the exact quotient is below [2^1023]. *)
Lemma div_finite (x : spec_float) (sy : bool) (my : positive) (ey : Z) :
  Binary64.isFinite x = true ->
  Qabs (Binary64.value x / Binary64.value (S754_finite sy my ey))
  < pow2 1023 ->
  Binary64.isFinite (Binary64.div x (S754_finite sy my ey)) = true.
Proof.
  assert (Hy : 0 < inject_Z (Zpos my) * pow2 ey).
  { apply Qmult_lt_0_compat; [| apply pow2_pos].
    change 0 with (inject_Z 0). rewrite <- Zlt_Qlt. lia. }
  destruct x as [sx | sx | | sx mx ex]; try discriminate; intros _ Hlt;
    unfold Binary64.div, SFdiv; [reflexivity |].
  destruct (div_core_spec mx ex my ey) as (x & Hq & L & Hpre & Hv).
  destruct (SFdiv_core_binary Binary64.prec Binary64.emax
              (Zpos mx) ex (Zpos my) ey) as [[mz ez] lz].
  cbn [fst snd] in Hq, L, Hpre, Hv.
  apply (binary_round_aux_finite (xorb sx sy) mz ez lz x Hq L Hpre).
  rewrite Hv.
  rewrite !value_finite, signed_div, Qabs_signed in Hlt by lra.
  rewrite Qabs_pos in Hlt; [exact Hlt |].
  assert (0 < inject_Z (Zpos mx) * pow2 ex).
  { apply Qmult_lt_0_compat; [| apply pow2_pos].
    change 0 with (inject_Z 0). rewrite <- Zlt_Qlt. lia. }
  apply Qle_shift_div_l; lra.
Qed.

(** [a * b] is finite when the exact product is below [2^1023] and [a] has
    a full mantissa. *)
Lemma mul_finite (sx : bool) (mx : positive) (ex : Z) (y : spec_float) :
  (2 ^ 52 <= Zpos mx)%Z ->
  Binary64.isFinite y = true ->
  Qabs (Binary64.value (S754_finite sx mx ex) * Binary64.value y)
  < pow2 1023 ->
  Binary64.isFinite (Binary64.mul (S754_finite sx mx ex) y) = true.
Proof.
  intros Hmx.
  destruct y as [sy | sy | | sy my ey]; try discriminate; intros _ Hlt;
    unfold Binary64.mul, SFmul; [reflexivity |].
  apply (binary_round_aux_finite (xorb sx sy) (Zpos (mx * my)) (ex + ey)
           loc_Exact (inject_Z (Zpos (mx * my)))); [lia | reflexivity | |].
  - assert (Hd : (53 <= Zdigits2 (Zpos (mx * my)))%Z).
    { apply Zdigits2_ge; [| lia]. rewrite Pos2Z.inj_mul.
      change (2 ^ (53 - 1))%Z with (2 ^ 52)%Z. nia. }
    rewrite fexp_eq. lia.
  - rewrite !value_finite, signed_mult, Qabs_signed in Hlt.
    rewrite Qabs_pos in Hlt.
    + rewrite Pos2Z.inj_mul, inject_Z_mult, pow2_add.
      setoid_replace (inject_Z (Zpos mx) * inject_Z (Zpos my)
                      * (pow2 ex * pow2 ey))
        with (inject_Z (Zpos mx) * pow2 ex * (inject_Z (Zpos my) * pow2 ey))
        by ring.
      exact Hlt.
    + apply Qmult_le_0_compat; apply Qmult_le_0_compat;
        try (apply Qlt_le_weak, pow2_pos);
        change 0 with (inject_Z 0); rewrite <- Zle_Qle; lia.
Qed.

End Overflow.

Section Analysis.

Local Open Scope Q_scope.

Lemma Qabs_scale (t z : Q) : 0 <= t -> Qabs (t * z) == t * Qabs z.
Proof. intros Ht. now rewrite Qabs_Qmult, (Qabs_pos t). Qed.

Lemma scale_le (t z : Q) : 0 <= t <= 1 -> 0 <= z -> t * z <= z.
Proof.
  intros [H0 H1] Hz.
  setoid_replace z with (1 * z) at 2 by ring.
  apply Qmult_le_compat_r; assumption.
Qed.

(** The rounded step, multiplied by the counter, against the exact
    difference scaled by [i / n]. *)
Lemma scaled_step (D H n i : Q) :
  1 <= n <= 999 -> 0 <= i <= n ->
  Qabs (H - D / n) <= epsilon * Qabs (D / n) + tiny ->
  Qabs (i * H - i / n * D) <= epsilon * Qabs D + 999 * tiny.
Proof.
  intros HNq HIq Hh.
  set (t := i / n).
  assert (Ht : 0 <= t <= 1).
  { unfold t. split.
    - apply Qle_shift_div_l; lra.
    - apply Qle_shift_div_r; lra. }
  pose proof epsilon_pos as Hu. pose proof tiny_pos as Heta.
  setoid_replace (i * H - t * D) with (i * (H - D / n))
    by (unfold t; field; lra).
  rewrite Qabs_scale by lra.
  assert (H1 : i * Qabs (H - D / n) <= i * (epsilon * Qabs (D / n) + tiny)).
  { rewrite (Qmult_comm i), (Qmult_comm i). apply Qmult_le_compat_r; lra. }
  assert (H2 : i * Qabs (D / n) == t * Qabs D).
  { rewrite <- !Qabs_scale by lra. apply Qabs_wd. unfold t. field. lra. }
  assert (H3 : t * Qabs D <= Qabs D).
  { apply scale_le; [exact Ht | apply Qabs_nonneg]. }
  assert (H4 : i * tiny <= 999 * tiny).
  { apply Qmult_le_compat_r; lra. }
  assert (H5 : i * (epsilon * Qabs (D / n) + tiny)
               == epsilon * (i * Qabs (D / n)) + i * tiny) by ring.
  assert (H6 : epsilon * (t * Qabs D) <= epsilon * Qabs D).
  { apply Qmult_le_l; lra. }
  rewrite H5, H2 in H1. lra.
Qed.

(** How the four roundings of a domain point add up. *)
Lemma point_error (A B D H P X : Q) (N I : Z) :
  (1 <= N <= 999)%Z -> (0 <= I <= N)%Z ->
  Qabs (D - (B - A)) <= epsilon * Qabs (B - A) + tiny ->
  Qabs (H - D / inject_Z N) <= epsilon * Qabs (D / inject_Z N) + tiny ->
  Qabs (P - inject_Z I * H) <= epsilon * Qabs (inject_Z I * H) + tiny ->
  Qabs (X - (A + P)) <= epsilon * Qabs (A + P) + tiny ->
  Qabs (X - (A + inject_Z I / inject_Z N * (B - A))) <= tolerance A B.
Proof.
  intros HN HI Hd Hh Hp Hx.
  assert (HNq : 1 <= inject_Z N <= 999).
  { change 1 with (inject_Z 1). change 999 with (inject_Z 999).
    rewrite <- !Zle_Qle. exact HN. }
  assert (HIq : 0 <= inject_Z I <= inject_Z N).
  { change 0 with (inject_Z 0). rewrite <- !Zle_Qle. exact HI. }
  set (n := inject_Z N) in *. set (i := inject_Z I) in *.
  set (t := i / n).
  assert (Ht : 0 <= t <= 1).
  { unfold t. split.
    - apply Qle_shift_div_l; lra.
    - apply Qle_shift_div_r; lra. }
  assert (Etn : t * n == i) by (unfold t; field; lra).
  pose proof epsilon_pos as Hu. pose proof tiny_pos as Heta.
  pose proof (scaled_step D H n i HNq HIq Hh) as Hih. fold t in Hih.
  assert (Htd : Qabs (t * D - t * (B - A)) <= Qabs (D - (B - A))).
  { setoid_replace (t * D - t * (B - A)) with (t * (D - (B - A))) by ring.
    rewrite Qabs_scale by lra. apply scale_le; [exact Ht | apply Qabs_nonneg]. }
  assert (Htw : Qabs (t * (B - A)) <= Qabs (B - A)).
  { rewrite Qabs_scale by lra. apply scale_le; [exact Ht | apply Qabs_nonneg]. }
  (* absolute values, as bounds on both sides *)
  pose proof (Qabs_triangle B (- A)) as Tba. rewrite Qabs_opp in Tba.
  setoid_replace (B + - A) with (B - A) in Tba by ring.
  pose proof (Qabs_nonneg A) as HA0. pose proof (Qabs_nonneg B) as HB0.
  pose proof (Qabs_nonneg (B - A)) as Hg0.
  assert (TD : Qabs D <= Qabs (B - A) + Qabs (D - (B - A))).
  { setoid_replace D with ((B - A) + (D - (B - A))) at 1 by ring.
    apply Qabs_triangle. }
  assert (TW : Qabs (i * H) <= Qabs (t * (B - A))
                               + (Qabs (i * H - t * D)
                                  + Qabs (t * D - t * (B - A)))).
  { setoid_replace (i * H)
      with (t * (B - A) + ((i * H - t * D) + (t * D - t * (B - A))))
      at 1 by ring.
    eapply Qle_trans; [apply Qabs_triangle |].
    apply Qplus_le_r. apply Qabs_triangle. }
  assert (TP : Qabs (A + P) <= Qabs A + (Qabs (P - i * H) + Qabs (i * H))).
  { setoid_replace (A + P) with (A + ((P - i * H) + i * H)) at 1 by ring.
    eapply Qle_trans; [apply Qabs_triangle |].
    apply Qplus_le_r. apply Qabs_triangle. }
  assert (TX : Qabs (X - (A + t * (B - A)))
               <= Qabs (X - (A + P))
                  + (Qabs (P - i * H)
                     + (Qabs (i * H - t * D) + Qabs (t * D - t * (B - A))))).
  { setoid_replace (X - (A + t * (B - A)))
      with ((X - (A + P))
            + ((P - i * H) + ((i * H - t * D) + (t * D - t * (B - A)))))
      at 1 by ring.
    eapply Qle_trans; [apply Qabs_triangle |]. apply Qplus_le_r.
    eapply Qle_trans; [apply Qabs_triangle |]. apply Qplus_le_r.
    apply Qabs_triangle. }
  unfold tolerance.
  assert (Eu : epsilon == 1 # 9007199254740992) by reflexivity.
  assert (Et : pow2 (-1064) == 2048 * tiny) by reflexivity.
  rewrite Et. rewrite Eu in *.
  generalize dependent (Qabs (X - (A + t * (B - A)))).
  generalize dependent (Qabs (X - (A + P))).
  generalize dependent (Qabs (A + P)).
  generalize dependent (Qabs (P - i * H)).
  generalize dependent (Qabs (i * H - t * D)).
  generalize dependent (Qabs (t * D - t * (B - A))).
  generalize dependent (Qabs (t * (B - A))).
  generalize dependent (Qabs (i * H)).
  generalize dependent (Qabs (D - (B - A))).
  generalize dependent (Qabs (B - A)).
  generalize dependent (Qabs D).
  generalize dependent (Qabs A).
  generalize dependent (Qabs B).
  intros. lra.
Qed.

End Analysis.

Section Magnitudes.

Local Open Scope Q_scope.

(** Linear arithmetic with the absolute values taken as unknowns. *)
Ltac abs_lra :=
  repeat match goal with
         | H : context [Qabs ?z] |- _ => generalize dependent (Qabs z)
         | |- context [Qabs ?z] => generalize dependent (Qabs z)
         end;
  intros; lra.

(** The sizes of the intermediate results of a domain point, each known
    once the one before is known to be finite. *)
Lemma point_bounds (A B D H P K : Q) (N I : Z) :
  (1 <= N <= 999)%Z -> (0 <= I <= N)%Z ->
  1 <= K -> Qabs A <= K -> Qabs B <= K ->
  Qabs (B - A) < 4 * K
  /\ (Qabs (D - (B - A)) <= epsilon * Qabs (B - A) + tiny ->
      Qabs (D / inject_Z N) < 4 * K
      /\ (Qabs (H - D / inject_Z N)
          <= epsilon * Qabs (D / inject_Z N) + tiny ->
          Qabs (inject_Z I * H) < 4 * K
          /\ (Qabs (P - inject_Z I * H)
              <= epsilon * Qabs (inject_Z I * H) + tiny ->
              Qabs (A + P) < 4 * K))).
Proof.
  intros HN HI HK HA HB.
  assert (HNq : 1 <= inject_Z N <= 999).
  { change 1 with (inject_Z 1). change 999 with (inject_Z 999).
    rewrite <- !Zle_Qle. exact HN. }
  assert (HIq : 0 <= inject_Z I <= inject_Z N).
  { change 0 with (inject_Z 0). rewrite <- !Zle_Qle. exact HI. }
  set (n := inject_Z N) in *. set (i := inject_Z I) in *.
  set (t := i / n).
  assert (Ht : 0 <= t <= 1).
  { unfold t. split.
    - apply Qle_shift_div_l; lra.
    - apply Qle_shift_div_r; lra. }
  pose proof tiny_pos as Heta.
  assert (Heta1 : tiny <= 1 # 1024).
  { change (1 # 1024) with (pow2 (-10)). apply pow2_le. lia. }
  assert (Eu : epsilon == 1 # 9007199254740992) by reflexivity.
  pose proof (Qabs_triangle B (- A)) as Tba. rewrite Qabs_opp in Tba.
  setoid_replace (B + - A) with (B - A) in Tba by ring.
  pose proof (Qabs_nonneg A) as HA0. pose proof (Qabs_nonneg B) as HB0.
  pose proof (Qabs_nonneg (B - A)) as Hg0.
  split; [abs_lra |]. intros Hd.
  assert (TD : Qabs D <= Qabs (B - A) + Qabs (D - (B - A))).
  { setoid_replace D with ((B - A) + (D - (B - A))) at 1 by ring.
    apply Qabs_triangle. }
  assert (HDn : Qabs (D / n) <= Qabs D).
  { setoid_replace (D / n) with (/ n * D) by (field; lra).
    assert (Hinv : 0 <= / n <= 1).
    { split.
      - apply Qinv_le_0_compat. lra.
      - setoid_replace (/ n) with (1 / n) by (field; lra).
        apply Qle_shift_div_r; lra. }
    rewrite Qabs_scale by lra.
    apply scale_le; [exact Hinv | apply Qabs_nonneg]. }
  pose proof (Qabs_nonneg D) as HD0.
  rewrite Eu in Hd.
  split; [abs_lra |]. intros Hh.
  pose proof (scaled_step D H n i HNq HIq Hh) as Hih. fold t in Hih.
  assert (Htd : Qabs (t * D) <= Qabs D).
  { rewrite Qabs_scale by lra. apply scale_le; [exact Ht | exact HD0]. }
  assert (TW : Qabs (i * H) <= Qabs (t * D) + Qabs (i * H - t * D)).
  { setoid_replace (i * H) with (t * D + (i * H - t * D)) at 1 by ring.
    apply Qabs_triangle. }
  rewrite Eu in Hih.
  split; [abs_lra |]. intros Hp.
  assert (TP : Qabs (A + P) <= Qabs A + (Qabs (P - i * H) + Qabs (i * H))).
  { setoid_replace (A + P) with (A + ((P - i * H) + i * H)) at 1 by ring.
    eapply Qle_trans; [apply Qabs_triangle |].
    apply Qplus_le_r. apply Qabs_triangle. }
  rewrite Eu in Hp.
  pose proof (Qabs_nonneg (i * H)).
  abs_lra.
Qed.

End Magnitudes.

(** ** The domain points, on binary64 numbers *)

Section DomainPoints.

Lemma xValues64_unfold (a b n : spec_float) :
  pushPoints64 a b n maxPoints 0 [] = xValues64 a b n.
Proof. exact (eq_refl (pushPoints64 a b n maxPoints 0 [])). Qed.

(** Two doubles above zero compare by exponent, then by mantissa. *)
Lemma ltb_positive (m1 : positive) (e1 : Z) (m2 : positive) (e2 : Z) :
  Binary64.ltb (S754_finite false m1 e1) (S754_finite false m2 e2) = true
  <-> (e1 < e2)%Z \/ (e1 = e2 /\ (m1 < m2)%positive).
Proof.
  unfold Binary64.ltb, SFltb, SFcompare.
  change (Pos.compare_cont Eq m1 m2) with (Pos.compare m1 m2).
  destruct (Z.compare_spec e1 e2) as [He | He | He].
  - destruct (Pos.compare_spec m1 m2) as [Hm | Hm | Hm]; split;
      try discriminate; try (intros _; right; split; assumption);
      intros [H | [_ H]]; lia.
  - split; [intros _; left; exact He | reflexivity].
  - split; [discriminate | intros [H | [H _]]; lia].
Qed.

(** The counters from 1 to 1000 are doubles above zero, each above the one
    before; so is the count less one. *)
Lemma counters_check :
  forallb (fun k => Binary64.positive (Binary64.of_nat (S k))
                    && Binary64.ltb (Binary64.of_nat k) (Binary64.of_nat (S k))
                    && Binary64.positive
                         (Binary64.sub (Binary64.of_nat (S (S k)))
                                       (Binary64.of_nat 1)))
          (seq 0 1000) = true.
Proof. vm_compute. reflexivity. Qed.

Lemma counter_facts (k : nat) :
  (k < 1000)%nat ->
  Binary64.positive (Binary64.of_nat (S k)) = true
  /\ Binary64.ltb (Binary64.of_nat k) (Binary64.of_nat (S k)) = true
  /\ Binary64.positive
       (Binary64.sub (Binary64.of_nat (S (S k))) (Binary64.of_nat 1)) = true.
Proof.
  intros Hk.
  pose proof (proj1 (forallb_forall _ _) counters_check k) as H.
  cbv beta in H.
  rewrite !andb_true_iff in H. rewrite <- and_assoc. apply H.
  apply in_seq. lia.
Qed.

Lemma positive_inv (x : spec_float) :
  Binary64.positive x = true -> exists m e, x = S754_finite false m e.
Proof.
  destruct x as [s | s | | [|] m e]; try discriminate. intros _. eauto.
Qed.

Lemma counter_positive (i : nat) :
  (1 <= i <= 1000)%nat -> exists m e, Binary64.of_nat i = S754_finite false m e.
Proof.
  intros Hi. destruct i as [| k]; [lia |].
  apply positive_inv, counter_facts. lia.
Qed.

Lemma counter_below (n : nat) :
  (n <= 1000)%nat ->
  forall i, (i < n)%nat ->
    Binary64.ltb (Binary64.of_nat i) (Binary64.of_nat n) = true.
Proof.
  induction n as [| k IH]; intros Hn i Hi; [lia |].
  destruct (counter_facts k ltac:(lia)) as (_ & Hstep & _).
  destruct (Nat.eq_dec i k) as [-> | Hne]; [exact Hstep |].
  assert (Hik : (i < k)%nat) by lia.
  specialize (IH ltac:(lia) i Hik).
  destruct (counter_positive k ltac:(lia)) as (m2 & e2 & E2).
  destruct (counter_positive (S k) ltac:(lia)) as (m3 & e3 & E3).
  rewrite E2 in IH, Hstep. rewrite E3 in Hstep |- *.
  destruct i as [| j].
  - reflexivity.
  - destruct (counter_positive (S j) ltac:(lia)) as (m1 & e1 & E1).
    rewrite E1 in IH |- *.
    apply ltb_positive in IH. apply ltb_positive in Hstep.
    apply ltb_positive. lia.
Qed.

Lemma counter_stops (n : nat) :
  (n <= 1000)%nat ->
  Binary64.ltb (Binary64.of_nat n) (Binary64.of_nat n) = false.
Proof.
  intros Hn. destruct n as [| k]; [reflexivity |].
  destruct (counter_positive (S k) ltac:(lia)) as (m & e & E). rewrite E.
  destruct (Binary64.ltb (S754_finite false m e) (S754_finite false m e))
    eqn:H; [| reflexivity].
  apply ltb_positive in H. lia.
Qed.

Lemma pushPoints64_count (a b : spec_float) (n : nat) :
  (n <= 1000)%nat ->
  forall fuel i acc,
    (i <= n)%nat -> (n - i <= fuel)%nat ->
    pushPoints64 a b (Binary64.of_nat n) fuel i acc
    = acc ++ map (fun i => Binary64.add a
                             (Binary64.mul (Binary64.of_nat i)
                                (step64 a b (Binary64.of_nat n))))
                 (seq i (n - i)).
Proof.
  intros Hn. induction fuel as [| fuel IH]; intros i acc Hi Hf.
  - replace (n - i)%nat with 0%nat by lia. cbn [seq map].
    now rewrite app_nil_r.
  - cbn [pushPoints64].
    destruct (Nat.eq_dec i n) as [-> | Hne].
    + rewrite counter_stops by exact Hn.
      rewrite Nat.sub_diag. cbn [seq map]. now rewrite app_nil_r.
    + rewrite counter_below by lia.
      rewrite IH by lia.
      replace (n - i)%nat with (S (n - S i)) by lia.
      cbn [seq map]. rewrite <- app_assoc. reflexivity.
Qed.

(** The counters stand for themselves, and so does the count less one. *)
Lemma counter_values_check :
  forallb (fun k =>
             Qeq_bool (Binary64.value (Binary64.of_nat k))
                      (inject_Z (Z.of_nat k))
             && Qeq_bool (Binary64.value
                            (Binary64.sub (Binary64.of_nat (S k))
                                          (Binary64.of_nat 1)))
                         (inject_Z (Z.of_nat k)))
          (seq 0 1001) = true.
Proof. vm_compute. reflexivity. Qed.

Lemma counter_value (k : nat) :
  (k <= 1000)%nat ->
  (Binary64.value (Binary64.of_nat k) == inject_Z (Z.of_nat k))%Q
  /\ (Binary64.value (Binary64.sub (Binary64.of_nat (S k)) (Binary64.of_nat 1))
      == inject_Z (Z.of_nat k))%Q.
Proof.
  intros Hk.
  pose proof (proj1 (forallb_forall _ _) counter_values_check k) as H.
  cbv beta in H. rewrite andb_true_iff, !Qeq_bool_iff in H.
  apply H, in_seq. lia.
Qed.

Lemma counter_finite (k : nat) :
  (k <= 1000)%nat -> Binary64.isFinite (Binary64.of_nat k) = true.
Proof.
  intros Hk. destruct k as [| k]; [reflexivity |].
  destruct (counter_positive (S k) ltac:(lia)) as (m & e & ->). reflexivity.
Qed.

Lemma add_finite_inv (x y : spec_float) :
  Binary64.isFinite (Binary64.add x y) = true ->
  Binary64.isFinite y = true.
Proof.
  destruct x as [sx | sx | | sx mx ex], y as [sy | sy | | sy my ey];
    try reflexivity; try discriminate;
    unfold Binary64.add, SFadd; try discriminate;
    destruct sx, sy; discriminate.
Qed.

Lemma mul_finite_inv (x y : spec_float) :
  Binary64.isFinite x = true ->
  Binary64.isFinite (Binary64.mul x y) = true ->
  Binary64.isFinite y = true.
Proof.
  destruct x as [sx | sx | | sx mx ex], y as [sy | sy | | sy my ey];
    try reflexivity; try discriminate.
Qed.

Lemma div_finite_inv (x : spec_float) (sy : bool) (my : positive) (ey : Z) :
  Binary64.isFinite (Binary64.div x (S754_finite sy my ey)) = true ->
  Binary64.isFinite x = true.
Proof.
  destruct x as [sx | sx | | sx mx ex]; try reflexivity; discriminate.
Qed.

Local Open Scope Q_scope.

(** Every domain point that is finite lies within the tolerance of the
    point of the same index among [n] evenly spaced points from [minX] to
    [maxX]. *)
Lemma point_within_tolerance (a b : spec_float) (n i : nat) :
  (2 <= n <= 1000)%nat -> (i < n)%nat ->
  Binary64.isFinite a = true -> Binary64.isFinite b = true ->
  let x := Binary64.add a
             (Binary64.mul (Binary64.of_nat i)
                           (step64 a b (Binary64.of_nat n))) in
  Binary64.isFinite x = true ->
  Qabs (Binary64.value x
        - evenPoint (Binary64.value a) (Binary64.value b) n i)
  <= tolerance (Binary64.value a) (Binary64.value b).
Proof.
  intros Hn Hi Ha Hb x Hx. unfold x in *. clear x.
  unfold step64 in *.
  destruct n as [| [| k]]; [lia | lia |].
  destruct (counter_facts k ltac:(lia)) as (_ & _ & Hpos).
  destruct (counter_value (S k) ltac:(lia)) as [_ HvN].
  destruct (counter_value i ltac:(lia)) as [Hvi _].
  pose proof (counter_finite i ltac:(lia)) as Hfi.
  apply positive_inv in Hpos. destruct Hpos as (mN & eN & EN).
  rewrite EN in *.
  set (d := Binary64.sub b a) in *.
  set (h := Binary64.div d (S754_finite false mN eN)) in *.
  set (p := Binary64.mul (Binary64.of_nat i) h) in *.
  assert (Hp : Binary64.isFinite p = true) by (eapply add_finite_inv; eauto).
  assert (Hh : Binary64.isFinite h = true)
    by (eapply mul_finite_inv; [exact Hfi | exact Hp]).
  assert (Hd : Binary64.isFinite d = true)
    by (eapply div_finite_inv; exact Hh).
  pose proof (sub_near b a Hb Ha Hd) as Nd.
  pose proof (div_near d false mN eN Hd Hh) as Nh.
  pose proof (mul_near (Binary64.of_nat i) h Hfi Hh Hp) as Np.
  pose proof (add_near a p Ha Hp Hx) as Nx.
  fold d in Nd. fold h in Nh, Np. fold p in Np, Nx.
  unfold near in *. rewrite HvN in Nh. rewrite Hvi in Np.
  unfold evenPoint.
  replace (Z.of_nat (S (S k)) - 1)%Z with (Z.of_nat (S k)) by lia.
  apply (point_error (Binary64.value a) (Binary64.value b)
           (Binary64.value d) (Binary64.value h) (Binary64.value p)
           (Binary64.value (Binary64.add a p))
           (Z.of_nat (S k)) (Z.of_nat i));
    try assumption; lia.
Qed.

Lemma counter_mantissa_check :
  forallb (fun k =>
             match Binary64.of_nat (S k) with
             | S754_finite false m _ => (2 ^ 52 <=? Zpos m)%Z
             | _ => false
             end)
          (seq 0 1000) = true.
Proof. vm_compute. reflexivity. Qed.

Lemma counter_mantissa (i : nat) :
  (1 <= i <= 1000)%nat ->
  exists m e, Binary64.of_nat i = S754_finite false m e
              /\ (2 ^ 52 <= Zpos m)%Z.
Proof.
  intros Hi. destruct i as [| k]; [lia |].
  pose proof (proj1 (forallb_forall _ _) counter_mantissa_check k) as H.
  cbv beta in H.
  destruct (Binary64.of_nat (S k)) as [| | | [|] m e];
    try (discriminate H; apply in_seq; lia).
  exists m, e. split; [reflexivity |].
  apply Z.leb_le, H, in_seq. lia.
Qed.

Lemma mul_counter_finite (i : nat) (y : spec_float) :
  (i <= 1000)%nat ->
  Binary64.isFinite y = true ->
  Qabs (Binary64.value (Binary64.of_nat i) * Binary64.value y) < pow2 1023 ->
  Binary64.isFinite (Binary64.mul (Binary64.of_nat i) y) = true.
Proof.
  intros Hi Hy Hlt. destruct i as [| k].
  - change (Binary64.of_nat 0) with (S754_zero false).
    destruct y as [sy | sy | | sy my ey]; try discriminate; reflexivity.
  - destruct (counter_mantissa (S k) ltac:(lia)) as (m & e & E & Hm).
    rewrite E in *. now apply mul_finite.
Qed.

(** With both bounds within [safeBound] nothing overflows: the step and
    every domain point are finite. *)
Lemma points_finite (a b : spec_float) (n i : nat) :
  (2 <= n <= 1000)%nat -> (i < n)%nat ->
  Binary64.isFinite a = true -> Binary64.isFinite b = true ->
  Qabs (Binary64.value a) <= safeBound ->
  Qabs (Binary64.value b) <= safeBound ->
  Binary64.isFinite (step64 a b (Binary64.of_nat n)) = true
  /\ Binary64.isFinite
       (Binary64.add a
          (Binary64.mul (Binary64.of_nat i)
                        (step64 a b (Binary64.of_nat n)))) = true.
Proof.
  intros Hn Hi Ha Hb HA HB. unfold step64.
  destruct n as [| [| k]]; [lia | lia |].
  destruct (counter_facts k ltac:(lia)) as (_ & _ & Hpos).
  destruct (counter_value (S k) ltac:(lia)) as [_ HvN].
  destruct (counter_value i ltac:(lia)) as [Hvi _].
  apply positive_inv in Hpos. destruct Hpos as (mN & eN & EN).
  rewrite EN in *.
  set (d := Binary64.sub b a) in *.
  set (h := Binary64.div d (S754_finite false mN eN)) in *.
  set (p := Binary64.mul (Binary64.of_nat i) h) in *.
  assert (HK : 1 <= safeBound).
  { change 1 with (pow2 0). apply pow2_le. lia. }
  assert (E4 : pow2 1023 == 4 * safeBound) by reflexivity.
  destruct (point_bounds (Binary64.value a) (Binary64.value b)
              (Binary64.value d) (Binary64.value h) (Binary64.value p)
              safeBound (Z.of_nat (S k)) (Z.of_nat i)
              ltac:(lia) ltac:(lia) HK HA HB) as [B1 B2].
  assert (Hd : Binary64.isFinite d = true).
  { apply sub_finite; [exact Hb | exact Ha |]. rewrite E4. exact B1. }
  pose proof (sub_near b a Hb Ha Hd) as Nd. fold d in Nd.
  destruct (B2 Nd) as [B3 B4].
  assert (Hh : Binary64.isFinite h = true).
  { apply div_finite; [exact Hd |]. rewrite HvN, E4. exact B3. }
  pose proof (div_near d false mN eN Hd Hh) as Nh. fold h in Nh.
  unfold near in Nh. rewrite HvN in Nh.
  destruct (B4 Nh) as [B5 B6].
  assert (Hp : Binary64.isFinite p = true).
  { apply mul_counter_finite; [lia | exact Hh |]. rewrite Hvi, E4. exact B5. }
  pose proof (mul_near (Binary64.of_nat i) h (counter_finite i ltac:(lia))
                Hh Hp) as Np.
  fold p in Np. unfold near in Np. rewrite Hvi in Np.
  split; [exact Hh |].
  apply add_finite; [exact Ha | exact Hp |]. rewrite E4. exact (B6 Np).
Qed.

(** C1, as the code has it.  For a whole sample count [n] between 2 and
    1000 the loop pushes exactly [n] domain points, the one at index [i]
    being [minX + i * step] with [step = (maxX - minX) / (n - 1)], each of
    the operations rounded to binary64.  With [minX] and [step] finite the
    first point is [minX] (a zero when [minX] is one).  With finite bounds,
    every point that is finite lies within [tolerance] of the point of the
    same index among [n] evenly spaced points from [minX] to [maxX]; the
    last one, within [tolerance] of [maxX].  With both bounds within
    [safeBound] in absolute value, the step and all the points are finite.
    Beyond it a point need not be: when [minX] is finite and [maxX - minX]
    overflows to an infinity, [step] is that infinity, the first point is
    [NaN] and every other point is that infinity. *)
Theorem sampler_points_binary64 (a b : spec_float) (n : nat) :
  (2 <= n <= 1000)%nat ->
  let h := step64 a b (Binary64.of_nat n) in
  let xs := xValues64 a b (Binary64.of_nat n) in
  List.length xs = n
  /\ (forall i, (i < n)%nat ->
        nth_error xs i
        = Some (Binary64.add a (Binary64.mul (Binary64.of_nat i) h)))
  /\ (Binary64.isFinite a = true -> Binary64.isFinite h = true ->
        nth_error xs 0 = Some a
        \/ exists s s', a = S754_zero s
                        /\ nth_error xs 0 = Some (S754_zero s'))
  /\ (Binary64.isFinite a = true -> Binary64.isFinite b = true ->
      forall i x, nth_error xs i = Some x -> Binary64.isFinite x = true ->
        (Qabs (Binary64.value x
               - evenPoint (Binary64.value a) (Binary64.value b) n i)
         <= tolerance (Binary64.value a) (Binary64.value b))%Q)
  /\ (Binary64.isFinite a = true -> Binary64.isFinite b = true ->
      forall x, nth_error xs (n - 1) = Some x -> Binary64.isFinite x = true ->
        (Qabs (Binary64.value x - Binary64.value b)
         <= tolerance (Binary64.value a) (Binary64.value b))%Q)
  /\ (Binary64.isFinite a = true -> Binary64.isFinite b = true ->
      (Qabs (Binary64.value a) <= safeBound)%Q ->
      (Qabs (Binary64.value b) <= safeBound)%Q ->
      Binary64.isFinite h = true
      /\ forall i x, nth_error xs i = Some x -> Binary64.isFinite x = true)
  /\ (forall s, Binary64.isFinite a = true ->
        Binary64.sub b a = S754_infinity s ->
        h = S754_infinity s
        /\ nth_error xs 0 = Some S754_nan
        /\ forall i, (1 <= i < n)%nat ->
             nth_error xs i = Some (S754_infinity s)).
Proof.
  intros [Hlo Hhi] h xs.
  assert (Hxs : xs = map (fun i => Binary64.add a
                                     (Binary64.mul (Binary64.of_nat i) h))
                         (seq 0 n)).
  { unfold xs. rewrite <- xValues64_unfold.
    rewrite (pushPoints64_count a b n Hhi) by (unfold maxPoints; lia).
    now rewrite Nat.sub_0_r. }
  assert (Hnth : forall i, (i < n)%nat ->
            nth_error xs i
            = Some (Binary64.add a (Binary64.mul (Binary64.of_nat i) h))).
  { intros i Hi. rewrite Hxs, nth_error_map, nth_error_seq.
    destruct (Nat.ltb_spec i n); [reflexivity | lia]. }
  assert (Hlen : List.length xs = n).
  { rewrite Hxs. now rewrite length_map, length_seq. }
  assert (Htol : Binary64.isFinite a = true -> Binary64.isFinite b = true ->
            forall i x, nth_error xs i = Some x ->
              Binary64.isFinite x = true ->
              (Qabs (Binary64.value x
                     - evenPoint (Binary64.value a) (Binary64.value b) n i)
               <= tolerance (Binary64.value a) (Binary64.value b))%Q).
  { intros Ha Hb i x Hx Hfin.
    assert (Hi : (i < n)%nat).
    { rewrite <- Hlen. apply nth_error_Some. rewrite Hx. discriminate. }
    rewrite Hnth in Hx by exact Hi. injection Hx as <-.
    now apply point_within_tolerance. }
  split; [exact Hlen |].
  split; [exact Hnth |].
  split.
  { intros Ha Hh. rewrite Hnth by lia.
    change (Binary64.of_nat 0) with (S754_zero false).
    destruct a as [sa | sa | | sa ma ea]; try discriminate;
      destruct h as [sh | sh | | sh mh eh]; try discriminate.
    + right. exists sa.
      destruct sa, sh; eexists; split; reflexivity.
    + right. exists sa.
      destruct sa, sh; eexists; split; reflexivity.
    + left. reflexivity.
    + left. reflexivity. }
  split; [exact Htol |].
  split.
  { intros Ha Hb x Hx Hfin.
    pose proof (Htol Ha Hb (n - 1)%nat x Hx Hfin) as H.
    assert (E : (evenPoint (Binary64.value a) (Binary64.value b) n (n - 1)
                 == Binary64.value b)%Q).
    { unfold evenPoint.
      replace (Z.of_nat (n - 1)) with (Z.of_nat n - 1)%Z by lia.
      assert (Hn1 : (1 <= inject_Z (Z.of_nat n - 1))%Q).
      { change 1%Q with (inject_Z 1). rewrite <- Zle_Qle. lia. }
      field. lra. }
    rewrite E in H. exact H. }
  split.
  { intros Ha Hb HA HB. split.
    - exact (proj1 (points_finite a b n 0 (conj Hlo Hhi) ltac:(lia)
                      Ha Hb HA HB)).
    - intros i x Hx.
      assert (Hi : (i < n)%nat).
      { rewrite <- Hlen. apply nth_error_Some. rewrite Hx. discriminate. }
      rewrite Hnth in Hx by exact Hi. injection Hx as <-.
      exact (proj2 (points_finite a b n i (conj Hlo Hhi) Hi Ha Hb HA HB)). }
  intros s Ha Hsub.
  assert (Hh : h = S754_infinity s).
  { unfold h, step64. rewrite Hsub.
    destruct n as [| [| k]]; [lia | lia |].
    destruct (counter_facts k ltac:(lia)) as (_ & _ & Hp).
    apply positive_inv in Hp. destruct Hp as (m & e & ->).
    cbn. now rewrite xorb_false_r. }
  split; [exact Hh |]. split.
  + rewrite Hnth by lia. rewrite Hh.
    change (Binary64.of_nat 0) with (S754_zero false).
    destruct a as [sa | sa | | sa ma ea]; try discriminate; reflexivity.
  + intros i Hi. rewrite Hnth by lia. rewrite Hh.
    destruct (counter_positive i ltac:(lia)) as (m & e & ->).
    destruct a as [sa | sa | | sa ma ea]; try discriminate; reflexivity.
Qed.

End DomainPoints.

(** ** The loop over the points and the loop over the expressions *)

Section PointLoop.

Variable R : runtime.

Lemma evalPoints_app (c : compiled R) (text : string) (xs1 xs2 : list field) :
  forall acc,
    evalPoints R c text (xs1 ++ xs2) acc
    = andThen (evalPoints R c text xs1 acc)
              (fun ys => evalPoints R c text xs2 ys).
Proof.
  induction xs1 as [| x xs1 IH]; intros acc; [reflexivity |].
  cbn [app evalPoints].
  destruct (evaluate R c x) as [e | y].
  - destruct (call_toFixed R x); reflexivity.
  - apply IH.
Qed.

Lemma evalPoints_acc (c : compiled R) (text : string) (xs : list field) :
  forall acc,
    evalPoints R c text xs acc
    = andThen (evalPoints R c text xs []) (fun ys => inr (acc ++ ys)).
Proof.
  induction xs as [| x xs IH]; intros acc.
  - cbn. now rewrite app_nil_r.
  - cbn [evalPoints]. destruct (evaluate R c x) as [e | y].
    + destruct (call_toFixed R x); reflexivity.
    + rewrite IH. rewrite (IH ([] ++ [sampleOf y])).
      destruct (evalPoints R c text xs []) as [e | ys]; cbn; [reflexivity |].
      now rewrite <- app_assoc.
Qed.

(** The loop succeeds exactly when no evaluation throws, and then pushes one
    sample per point. *)
Lemma evalPoints_total (c : compiled R) (text : string) (xs : list field) :
  (forall x, In x xs -> exists y, evaluate R c x = inr y) ->
  evalPoints R c text xs [] = inr (map (sampleAt R c) xs).
Proof.
  induction xs as [| x xs IH]; intros Hok; [reflexivity |].
  cbn [evalPoints map]. unfold sampleAt at 1.
  destruct (Hok x (or_introl eq_refl)) as [y Hy]. rewrite Hy.
  rewrite evalPoints_acc, IH by (intros; apply Hok; now right).
  reflexivity.
Qed.

Lemma evalPoints_inr (c : compiled R) (text : string) (xs : list field)
  (ys : list (option num)) :
  evalPoints R c text xs [] = inr ys ->
  ys = map (sampleAt R c) xs
  /\ forall x, In x xs -> exists y, evaluate R c x = inr y.
Proof.
  revert ys. induction xs as [| x xs IH]; intros ys H.
  - cbn in H. injection H as <-. split; [reflexivity | intros x []].
  - cbn [evalPoints] in H. unfold sampleAt. cbn [map].
    destruct (evaluate R c x) as [e | y] eqn:Hy.
    + destruct (call_toFixed R x); discriminate.
    + rewrite evalPoints_acc in H.
      destruct (evalPoints R c text xs []) as [e | ys'] eqn:Hrest;
        [discriminate |].
      cbn in H. injection H as <-.
      destruct (IH ys' eq_refl) as [-> Hall].
      split; [reflexivity |].
      intros x' [<- | Hin]; [now exists y | now apply Hall].
Qed.

Lemma evalPoints_inl_inv (c : compiled R) (text : string) (xs : list field)
  (ex : exit) :
  evalPoints R c text xs [] = inl ex ->
  exists x e, In x xs /\ evaluate R c x = inl e
    /\ ex = match call_toFixed R x with
            | inr sx => Return (msgEval text sx e)
            | inl err => Throw err
            end.
Proof.
  induction xs as [| x xs IH]; intros H; [discriminate |].
  cbn [evalPoints] in H.
  destruct (evaluate R c x) as [e | y] eqn:Hy.
  - exists x, e. split; [now left |]. split; [exact Hy |].
    destruct (call_toFixed R x); now injection H as <-.
  - rewrite evalPoints_acc in H.
    destruct (evalPoints R c text xs []) as [ex' | ys]; [| discriminate].
    cbn in H. injection H as ->.
    destruct (IH eq_refl) as (x1 & e1 & Hin & He & Hex).
    exists x1, e1. split; [now right |]. now split.
Qed.

End PointLoop.

Section ExpressionLoop.

Variable R : runtime.

Lemma plotted_cons (i : nat) (e : expression) (rest : list expression) :
  plotted i (e :: rest)
  = if blank e then plotted (S i) rest else (i, e) :: plotted (S i) rest.
Proof.
  unfold plotted. cbn. destruct (blank e); reflexivity.
Qed.

Lemma plotLoop_acc (xs : list field) (exprs : list expression) :
  forall i acc,
    plotLoop R xs exprs i acc
    = andThen (plotLoop R xs exprs i []) (fun ds => inr (acc ++ ds)).
Proof.
  induction exprs as [| e rest IH]; intros i acc.
  - cbn. now rewrite app_nil_r.
  - cbn [plotLoop]. destruct (blank e); [apply IH |].
    destruct (compile R (value e)) as [m | c]; [reflexivity |].
    destruct (evalPoints R c (value e) xs []) as [ex | ys]; [reflexivity |].
    rewrite IH. rewrite (IH (S i) ([] ++ _)).
    destruct (plotLoop R xs rest (S i) []) as [ex | ds]; cbn; [reflexivity |].
    now rewrite <- app_assoc.
Qed.

Lemma plotLoop_inr (xs : list field) (exprs : list expression) :
  forall i ds,
    plotLoop R xs exprs i [] = inr ds ->
    Forall2 (curveOf R xs) (plotted i exprs) ds.
Proof.
  induction exprs as [| e rest IH]; intros i ds H.
  - cbn in H. injection H as <-. constructor.
  - rewrite plotted_cons. cbn [plotLoop] in H.
    destruct (blank e); [now apply IH |].
    destruct (compile R (value e)) as [m | c] eqn:Hc; [discriminate |].
    destruct (evalPoints R c (value e) xs []) as [ex | ys] eqn:Hys;
      [discriminate |].
    rewrite plotLoop_acc in H.
    destruct (plotLoop R xs rest (S i) []) as [ex | ds'] eqn:Hrest;
      [discriminate |].
    cbn in H. injection H as <-.
    apply evalPoints_inr in Hys. destruct Hys as [-> Hall].
    constructor; [| now apply IH].
    exists c. cbn. auto.
Qed.


End ExpressionLoop.

(** ** Failures of parsing and evaluation *)

Section Failures.

Variable R : runtime.

Lemma pushPoints_In (st : state) (x : field) :
  forall fuel i acc,
    In x (pushPoints R st fuel i acc) ->
    In x acc \/ exists j, x = point R st j.
Proof.
  induction fuel as [| fuel IH]; intros i acc H; [now left |].
  cbn [pushPoints] in H.
  destruct (js_lt R (FNum (of_nat i)) (numPoints st)); [| now left].
  apply IH in H. destruct H as [H | H]; [| now right].
  apply in_app_or in H. destruct H as [H | [<- | []]]; [now left |].
  right. now exists i.
Qed.

(** With a number as lower bound every domain point is a number. *)
Lemma xValues_numeric (st : state) (a : num) (x : field) :
  minX st = FNum a -> In x (xValues R st) -> exists n, x = FNum n.
Proof.
  intros Ha H. rewrite <- xValues_unfold in H.
  apply (pushPoints_In st x maxPoints 0 []) in H.
  destruct H as [[] | [j ->]].
  unfold point. rewrite Ha. cbn [js_add]. eauto.
Qed.



End Failures.

(** ** The checks and the chart *)

Section Validation.

Variable R : runtime.

Lemma plotLoop_inl_inv (xs : list field) (exprs : list expression) :
  forall i ex,
    plotLoop R xs exprs i [] = inl ex ->
    exists e, In e exprs /\ blank e = false /\ failsWith R xs e ex.
Proof.
  induction exprs as [| e rest IH]; intros i ex H; [discriminate |].
  cbn [plotLoop] in H.
  destruct (blank e) eqn:Hb.
  { destruct (IH _ _ H) as (e' & Hin & Hb' & Hf).
    exists e'. split; [now right | auto]. }
  destruct (compile R (value e)) as [m | c] eqn:Hc.
  { injection H as <-. exists e. split; [now left |]. split; [exact Hb |].
    left. now exists m. }
  destruct (evalPoints R c (value e) xs []) as [ex' | ys] eqn:Hys.
  { injection H as <-. exists e. split; [now left |]. split; [exact Hb |].
    right. apply evalPoints_inl_inv in Hys.
    destruct Hys as (x & m & Hx & Hm & Hex). exists c, x, m. auto. }
  rewrite plotLoop_acc in H.
  destruct (plotLoop R xs rest (S i) []) as [ex' | ds] eqn:Hrest;
    [| discriminate].
  cbn in H. injection H as <-.
  destruct (IH _ _ Hrest) as (e' & Hin & Hb' & Hf).
  exists e'. split; [now right | auto].
Qed.

Lemma plotted_nonempty (exprs : list expression) :
  forallb blank exprs = false -> forall i, plotted i exprs <> [].
Proof.
  induction exprs as [| e rest IH]; intros H i; [discriminate |].
  rewrite plotted_cons. cbn in H.
  destruct (blank e); [now apply IH | discriminate].
Qed.

Lemma validate_None (st : state) :
  validate R st = None ->
  forallb blank (expressions st) = false
  /\ (is_null (minX st) || is_null (maxX st)
      || js_ge R (minX st) (maxX st))%bool = false
  /\ (js_lt R (numPoints st) (FNum (of_Z 2))
      || js_gt R (numPoints st) (FNum (of_Z 1000)))%bool = false.
Proof.
  unfold validate.
  destruct (forallb blank (expressions st)); [discriminate |].
  destruct (is_null (minX st) || is_null (maxX st)
            || js_ge R (minX st) (maxX st))%bool; [discriminate |].
  destruct (js_lt R (numPoints st) (FNum (of_Z 2))
            || js_gt R (numPoints st) (FNum (of_Z 1000)))%bool;
    [discriminate | auto].
Qed.

(** The message of a failed check is one of three. *)
Lemma validate_Some (st : state) (msg : string) :
  validate R st = Some msg ->
  msg = msgEmpty \/ msg = msgRange \/ msg = msgCount.
Proof.
  unfold validate.
  destruct (forallb blank (expressions st)); [intros [= <-]; auto |].
  destruct (is_null (minX st) || is_null (maxX st)
            || js_ge R (minX st) (maxX st))%bool; [intros [= <-]; auto |].
  destruct (js_lt R (numPoints st) (FNum (of_Z 2))
            || js_gt R (numPoints st) (FNum (of_Z 1000)))%bool;
    [intros [= <-]; auto | discriminate].
Qed.

(** A failed check ends the call with its message stored and nothing else
    changed. *)
Lemma plotGraph_invalid (st : state) (msg : string) :
  validate R st = Some msg ->
  plotGraph R st = Fulfilled (set_errorMessage st msg).
Proof. intros H. unfold plotGraph. now rewrite H. Qed.

(** After the checks the loop over the expressions never ends with no
    dataset at all: the branch of line 173 is not taken. *)
Lemma plotLoop_nonempty (st : state) (xs : list field) (ds : list dataset) :
  validate R st = None ->
  plotLoop R xs (expressions st) 0 [] = inr ds -> ds <> [].
Proof.
  intros Hv H. apply plotLoop_inr in H.
  apply validate_None in Hv. destruct Hv as [Hb _].
  pose proof (plotted_nonempty (expressions st) Hb 0) as Hne.
  intros ->. inversion H as [E |]. now rewrite <- E in Hne.
Qed.

Lemma failsWith_message (xs : list field) (e : expression) (msg : string) :
  failsWith R xs e (Return msg) -> msg <> "" /\ msg <> msgNoValid.
Proof.
  intros [(m & _ & [= ->]) | (c & x & m & _ & _ & _ & H)].
  - split; discriminate.
  - destruct (call_toFixed R x); [discriminate |].
    injection H as ->. split; discriminate.
Qed.

(** C4.  A call that ends with an error message stored by a check or by the
    loop over the expressions leaves the chart as it was: same
    [chartInstance], no [destroy()].  The one place that stores a message
    and touches the chart is the branch for an empty list of datasets, which
    destroys the chart there is and clears [chartInstance]. *)
Theorem error_leaves_chart (st : state) :
  (forall st',
     plotGraph R st = Fulfilled st' -> errorMessage st' <> "" ->
     errorMessage st' <> msgNoValid
     /\ chartInstance st' = chartInstance st
     /\ destroyed st' = destroyed st)
  /\ (forall xs,
        exists st', render R st xs [] = Fulfilled st'
          /\ errorMessage st' = msgNoValid
          /\ loading st' = false
          /\ chartInstance st' = None
          /\ destroyed st'
             = match chartInstance st with
               | Some c => c :: destroyed st
               | None => destroyed st
               end).
Proof.
  split.
  - intros st' H Hmsg. unfold plotGraph in H.
    destruct (validate R st) as [msg |] eqn:Hv.
    + injection H as <-.
      cbn [errorMessage chartInstance destroyed set_errorMessage].
      repeat split.
      destruct (validate_Some st msg Hv) as [-> | [-> | ->]]; discriminate.
    + cbv zeta in H.
      destruct (plotLoop R (xValues R st) (expressions st) 0 [])
        as [[msg | err] | ds] eqn:Hl.
      * injection H as <-.
        cbn [errorMessage chartInstance destroyed set_errorMessage set_loading].
        repeat split.
        apply plotLoop_inl_inv in Hl. destruct Hl as (e & _ & _ & Hf).
        now apply failsWith_message in Hf.
      * discriminate.
      * pose proof (plotLoop_nonempty st _ ds Hv Hl) as Hne.
        destruct ds as [| d ds]; [congruence |].
        unfold render in H.
        cbn [chartCanvas set_chart set_loading set_errorMessage] in H.
        destruct (chartCanvas st).
        -- destruct (makeLabels R _); [discriminate |].
           injection H as <-. now cbn in Hmsg.
        -- injection H as <-. now cbn in Hmsg.
  - intros xs. eexists. split; [reflexivity |].
    cbn [errorMessage loading chartInstance destroyed set_errorMessage
         set_loading set_chart destroyChart].
    repeat split. now destruct (chartInstance st).
Qed.

End Validation.

Section RangeAndCount.

Local Open Scope Qc_scope.

Variable R : runtime.

Lemma geb_Fin (a b : Qc) : b <= a -> Num.geb (Fin a) (Fin b) = true.
Proof.
  intros H. cbn [Num.geb Num.ltb].
  destruct (a ?= b) eqn:E; try reflexivity.
  apply Qclt_alt in E. now apply Qcle_not_lt in H.
Qed.

Lemma ltb_Fin (a b : Qc) : Num.ltb (Fin a) (Fin b) = true <-> a < b.
Proof.
  cbn [Num.ltb]. rewrite Qclt_alt.
  destruct (a ?= b); split; congruence.
Qed.

(** C5, as the code has it.  When some entry is non-blank, a bound that is
    [null], or two finite bounds with [minX >= maxX], end the call at the
    second check: the range message is stored and nothing else changes, so
    nothing is sampled and the chart is as before. *)
Theorem range_check (st : state) :
  forallb blank (expressions st) = false ->
  (minX st = FNull \/ maxX st = FNull
   \/ exists a b : Qc,
        minX st = FNum (Fin a) /\ maxX st = FNum (Fin b) /\ b <= a) ->
  validate R st = Some msgRange
  /\ plotGraph R st = Fulfilled (set_errorMessage st msgRange).
Proof.
  intros Hb Hbad.
  assert (Hv : validate R st = Some msgRange).
  { unfold validate. rewrite Hb.
    destruct Hbad as [-> | [-> | (a & b & -> & -> & Hle)]].
    - reflexivity.
    - now rewrite orb_true_r.
    - cbn [is_null orb js_ge ToNumber]. now rewrite geb_Fin. }
  split; [exact Hv | now apply plotGraph_invalid].
Qed.

(** C6, as the code has it.  A finite sample count below 2 or above 1000
    always ends the call at one of the three checks, with the message of the
    first check that fails stored and nothing else changed; that message is
    the one about the number of points when the two earlier checks pass.  A
    sample count from 2 to 1000 never gives that message, and passes
    validation when the two earlier checks pass. *)
Theorem sample_count_check (st : state) (q : Qc) :
  numPoints st = FNum (Fin q) ->
  (q < Qc_of_Z 2 \/ Qc_of_Z 1000 < q ->
     exists msg,
       validate R st = Some msg
       /\ plotGraph R st = Fulfilled (set_errorMessage st msg)
       /\ (forallb blank (expressions st) = false ->
           (is_null (minX st) || is_null (maxX st)
            || js_ge R (minX st) (maxX st))%bool = false ->
           msg = msgCount))
  /\ (Qc_of_Z 2 <= q <= Qc_of_Z 1000 ->
        validate R st <> Some msgCount
        /\ (forallb blank (expressions st) = false ->
            (is_null (minX st) || is_null (maxX st)
             || js_ge R (minX st) (maxX st))%bool = false ->
            validate R st = None)).
Proof.
  intros Hn. split.
  - intros Hout.
    assert (Hc : (js_lt R (numPoints st) (FNum (of_Z 2))
                  || js_gt R (numPoints st) (FNum (of_Z 1000)))%bool = true).
    { rewrite Hn. unfold js_gt. cbn [js_lt ToNumber].
      apply orb_true_iff.
      destruct Hout as [H | H]; [left | right]; now apply ltb_Fin. }
    assert (Hv : exists msg, validate R st = Some msg
               /\ (forallb blank (expressions st) = false ->
                   (is_null (minX st) || is_null (maxX st)
                    || js_ge R (minX st) (maxX st))%bool = false ->
                   msg = msgCount)).
    { unfold validate. rewrite Hc.
      destruct (forallb blank (expressions st));
        [eexists; split; [reflexivity | discriminate] |].
      destruct (is_null (minX st) || is_null (maxX st)
                || js_ge R (minX st) (maxX st))%bool;
        eexists; split; try reflexivity; auto; discriminate. }
    destruct Hv as (msg & Hv & Hk). exists msg.
    split; [exact Hv |]. split; [now apply plotGraph_invalid | exact Hk].
  - intros [Hlo Hhi].
    assert (Hc : (js_lt R (numPoints st) (FNum (of_Z 2))
                  || js_gt R (numPoints st) (FNum (of_Z 1000)))%bool = false).
    { rewrite Hn. unfold js_gt. cbn [js_lt ToNumber].
      apply orb_false_iff. split.
      - destruct (Num.ltb (Fin q) (of_Z 2)) eqn:E; [| reflexivity].
        apply ltb_Fin in E. now apply Qcle_not_lt in Hlo.
      - destruct (Num.ltb (of_Z 1000) (Fin q)) eqn:E; [| reflexivity].
        apply ltb_Fin in E. now apply Qcle_not_lt in Hhi. }
    unfold validate. rewrite Hc.
    destruct (forallb blank (expressions st)); [split; discriminate |].
    destruct (is_null (minX st) || is_null (maxX st)
              || js_ge R (minX st) (maxX st))%bool; split; discriminate || auto.
Qed.

End RangeAndCount.

(** ** The datasets *)

Section Datasets.

Variable R : runtime.

Lemma match_xX_spec (text : string) : match_xX text = true <-> hasLetterX text.
Proof.
  unfold hasLetterX. induction text as [| c rest IH]; cbn.
  - split; [discriminate | intros [[] | []]].
  - destruct (Ascii.eqb_spec c "x") as [-> | Hx]; cbn.
    { split; auto. }
    destruct (Ascii.eqb_spec c "X") as [-> | HX]; cbn.
    { split; auto. }
    rewrite IH. split.
    + intros [H | H]; auto.
    + intros [[H | H] | [H | H]]; auto; congruence.
Qed.

Lemma plotted_index (exprs : list expression) :
  forall i, Forall (fun p => (i <= fst p)%nat
                             /\ nth_error exprs (fst p - i) = Some (snd p)
                             /\ blank (snd p) = false)
                   (plotted i exprs).
Proof.
  induction exprs as [| e rest IH]; intros i; [constructor |].
  rewrite plotted_cons.
  assert (Hrest : Forall (fun p => (i <= fst p)%nat
                    /\ nth_error (e :: rest) (fst p - i) = Some (snd p)
                    /\ blank (snd p) = false) (plotted (S i) rest)).
  { eapply Forall_impl; [| apply (IH (S i))].
    intros [j e'] (Hle & Hnth & Hb). cbn [fst snd] in *.
    split; [lia |]. split; [| exact Hb].
    replace (j - i)%nat with (S (j - S i)) by lia. exact Hnth. }
  destruct (blank e) eqn:Hb; [exact Hrest |].
  constructor; [| exact Hrest].
  cbn [fst snd]. rewrite Nat.sub_diag. auto.
Qed.

Lemma plotted_filter (exprs : list expression) :
  forall i, map snd (plotted i exprs) = filter nonblank exprs.
Proof.
  induction exprs as [| e rest IH]; intros i; [reflexivity |].
  rewrite plotted_cons. cbn [filter]. unfold nonblank at 1.
  destruct (blank e); cbn; now rewrite IH.
Qed.

Lemma Forall2_with_Forall {A B : Type} (P : A -> Prop) (Q : A -> B -> Prop)
  (l : list A) (l' : list B) :
  Forall P l -> Forall2 Q l l' -> Forall2 (fun a b => P a /\ Q a b) l l'.
Proof.
  intros HP HQ. induction HQ; constructor.
  - split; [now inversion HP | assumption].
  - apply IHHQ. now inversion HP.
Qed.

Lemma Forall2_weaken {A B : Type} (P Q : A -> B -> Prop)
  (l : list A) (l' : list B) :
  (forall a b, P a b -> Q a b) -> Forall2 P l l' -> Forall2 Q l l'.
Proof. intros H HP. induction HP; constructor; auto. Qed.

Lemma Forall2_of_map {A B C : Type} (f : A -> C) (P : C -> B -> Prop)
  (l : list A) (l' : list B) :
  Forall2 (fun a b => P (f a) b) l l' -> Forall2 P (map f l) l'.
Proof. intros H. induction H; constructor; auto. Qed.

(** The loop looks at the texts of the entries only. *)
Lemma plotLoop_texts (xs : list field) (exprs exprs' : list expression) :
  map value exprs' = map value exprs ->
  forall i acc, plotLoop R xs exprs' i acc = plotLoop R xs exprs i acc.
Proof.
  revert exprs'. induction exprs as [| e rest IH]; intros exprs' H i acc.
  - destruct exprs'; [reflexivity | discriminate].
  - destruct exprs' as [| e' rest']; [discriminate |].
    cbn [map] in H. injection H as He Hrest.
    cbn [plotLoop]. unfold blank. rewrite He.
    destruct (negb (truthy (trim (value e)))); [now apply IH |].
    destruct (compile R (value e)); [reflexivity |].
    destruct (evalPoints R c (value e) xs []); [reflexivity |].
    now apply IH.
Qed.


(** C7, as the code has it.  In a plot that produces its datasets, the
    dataset of a plotted entry has the palette colour at the index the entry
    has in the whole list of entries, blank ones counted, modulo the length
    of the palette; the ids play no part: two lists of entries with the same
    texts in the same order give the same datasets. *)
Theorem color_by_entry_index (xs : list field) (exprs : list expression)
  (ds : list dataset) :
  plotLoop R xs exprs 0 [] = inr ds ->
  Forall2 (fun p d =>
             nth_error exprs (fst p) = Some (snd p)
             /\ blank (snd p) = false
             /\ label d = ("y = " ++ value (snd p))%string
             /\ borderColor d
                = nth (fst p mod List.length lineColors) lineColors "")
          (plotted 0 exprs) ds
  /\ forall exprs',
       map value exprs' = map value exprs ->
       plotLoop R xs exprs' 0 [] = inr ds.
Proof.
  intros H. split.
  - apply plotLoop_inr in H.
    pose proof (Forall2_with_Forall _ _ _ _ (plotted_index exprs 0) H) as H2.
    eapply Forall2_weaken; [| exact H2].
    intros [j e] d ((_ & Hnth & Hb) & (c & _ & _ & ->)).
    cbn [fst snd] in *. rewrite Nat.sub_0_r in Hnth.
    repeat split; auto.
  - intros exprs' Ht. now rewrite (plotLoop_texts xs exprs exprs' Ht).
Qed.

(** C8, as the code has it.  In a plot that produces its datasets, the
    dataset of a plotted entry has point radius 0 when a letter [x] or [X]
    occurs in the text of the entry, and point radius 3 when neither
    does. *)
Theorem point_markers_by_letter (xs : list field) (exprs : list expression)
  (ds : list dataset) :
  plotLoop R xs exprs 0 [] = inr ds ->
  Forall2 (fun e d =>
             label d = ("y = " ++ value e)%string
             /\ (hasLetterX (value e) -> pointRadius d = 0%nat)
             /\ (~ hasLetterX (value e) -> pointRadius d = 3%nat))
          (filter nonblank exprs) ds.
Proof.
  intros H. apply plotLoop_inr in H.
  rewrite <- (plotted_filter exprs 0). apply Forall2_of_map.
  eapply Forall2_weaken; [| exact H].
  intros [j e] d (c & _ & _ & ->). cbn [fst snd label pointRadius makeDataset].
  split; [reflexivity |].
  destruct (match_xX (value e)) eqn:E.
  - split; [reflexivity |]. intros Hn. apply match_xX_spec in E. contradiction.
  - split; [| reflexivity]. intros Hl. apply match_xX_spec in Hl. congruence.
Qed.


End Datasets.

(** ** The pipeline on concrete inputs *)

(** The parabola on [-2, 2] with 5 points: the labels of the chart and the
    samples of its one dataset, printed with two digits. *)
Example parabola_plot :
  option_map labels
    (chartInstance (final (plotGraph Demo.runtime Demo.parabola)))
  = Some ["-2.00"; "-1.00"; "0.00"; "1.00"; "2.00"]
  /\ map (fun d => map (option_map (toFixed2 Demo.runtime)) (data d))
         (chartDatasets (plotGraph Demo.runtime Demo.parabola))
     = [[Some "4.00"; Some "1.00"; Some "0.00"; Some "1.00"; Some "4.00"]].
Proof. split; vm_compute; reflexivity. Qed.

(** [1/x] and [i] on [-1, 1] with 3 points: a gap at 0 for the first, gaps
    everywhere for the second. *)
Example gaps_plot :
  map (fun d => map (option_map (toFixed2 Demo.runtime)) (data d))
      (chartDatasets
         (plotGraph Demo.runtime
            (Demo.input ["1/x"; "i"] (Demo.int (-1)) (Demo.int 1)
                        (Demo.int 3))))
  = [[Some "-1.00"; None; Some "1.00"]; [None; None; None]].
Proof. vm_compute. reflexivity. Qed.

(** C5, the claim as worded fails.  With blank entries only and
    [minX >= maxX], the call ends at the first check and the message is the
    one about the expressions, not the one about the range; and a bound
    left as the empty string, with a non-blank entry, passes all three
    checks and a chart is drawn (from -10 to 0). *)
Lemma range_check_counterexample :
  validate Demo.runtime Demo.allBlankReversed = Some msgEmpty
  /\ errorMessage (final (plotGraph Demo.runtime Demo.allBlankReversed))
     = msgEmpty
  /\ msgEmpty <> msgRange
  /\ validate Demo.runtime Demo.clearedMax = None
  /\ errorMessage (final (plotGraph Demo.runtime Demo.clearedMax)) = ""
  /\ map label (chartDatasets (plotGraph Demo.runtime Demo.clearedMax))
     = ["y = x^2"].
Proof.
  repeat split; try (vm_compute; reflexivity). discriminate.
Qed.

(** C6, the claim as worded fails.  With a sample count of 1, the message
    is the one about the expressions when all entries are blank, and the one
    about the range when [minX >= maxX]; in neither case the one about the
    number of points. *)
Lemma sample_count_check_counterexample :
  errorMessage (final (plotGraph Demo.runtime Demo.allBlankOnePoint))
  = msgEmpty
  /\ errorMessage (final (plotGraph Demo.runtime Demo.reversedOnePoint))
     = msgRange
  /\ msgEmpty <> msgCount
  /\ msgRange <> msgCount.
Proof.
  repeat split; try (vm_compute; reflexivity); discriminate.
Qed.

(** C7, the claim as worded fails.  The entries [x] and [(blank), x] have
    the same non-blank texts in the same order; the curve of [x] is drawn in
    the first palette colour in one plot and in the second in the other,
    where it is the first plotted curve all the same. *)
Lemma color_by_plotted_position_counterexample :
  map value (filter nonblank (expressions Demo.onlyX))
  = map value (filter nonblank (expressions Demo.blankFirst))
  /\ map borderColor (chartDatasets (plotGraph Demo.runtime Demo.onlyX))
     = ["rgb(75, 192, 192)"]
  /\ map borderColor (chartDatasets (plotGraph Demo.runtime Demo.blankFirst))
     = ["rgb(255, 99, 132)"]
  /\ ~ colorByPlottedPosition
         (chartDatasets (plotGraph Demo.runtime Demo.blankFirst)).
Proof.
  repeat split; try (vm_compute; reflexivity).
  intros H.
  destruct (chartDatasets (plotGraph Demo.runtime Demo.blankFirst))
    as [| d ds] eqn:E; [vm_compute in E; discriminate |].
  specialize (H 0%nat d eq_refl).
  assert (Hd : map borderColor (d :: ds) = ["rgb(255, 99, 132)"]).
  { rewrite <- E. vm_compute. reflexivity. }
  cbn [map] in Hd. injection Hd as Hd _. rewrite Hd in H.
  vm_compute in H. discriminate.
Qed.


(** C8, the claim as worded fails.  The text [X = 3] does not contain the
    evaluation variable [x]; its curve, the constant 3, is drawn with point
    radius 0. *)
Lemma point_markers_counterexample :
  containsVariable "X = 3" = false
  /\ map label (chartDatasets (plotGraph Demo.runtime Demo.assignment))
     = ["y = X = 3"]
  /\ map pointRadius (chartDatasets (plotGraph Demo.runtime Demo.assignment))
     = [0%nat]
  /\ ~ markersByVariable
         (chartDatasets (plotGraph Demo.runtime Demo.assignment))
         ["X = 3"].
Proof.
  repeat split; try (vm_compute; reflexivity).
  intros H.
  destruct (chartDatasets (plotGraph Demo.runtime Demo.assignment))
    as [| d ds] eqn:E; [vm_compute in E; discriminate |].
  assert (Hd : map pointRadius (d :: ds) = [0%nat]).
  { rewrite <- E. vm_compute. reflexivity. }
  inversion H as [| d' t ds' ts [_ Hpos] _]. subst.
  cbn [map] in Hd. injection Hd as Hd _.
  specialize (Hpos eq_refl). rewrite Hd in Hpos. inversion Hpos.
Qed.

(** C1, the claim as worded fails.  The bounds [-Number.MAX_VALUE] and
    [Number.MAX_VALUE] are finite and in order, and 3 is a valid sample
    count; [maxX - minX] overflows, the step is [Infinity], and the domain
    points are [NaN], [Infinity], [Infinity]: the first is not [minX], the
    last is not near [maxX]. *)
Lemma sampler_overflow_counterexample :
  Binary64.isFinite (SFopp Binary64.maxValue) = true
  /\ Binary64.isFinite Binary64.maxValue = true
  /\ Binary64.ltb (SFopp Binary64.maxValue) Binary64.maxValue = true
  /\ Binary64.ltb (Binary64.of_nat 3) (Binary64.of_nat 2) = false
  /\ Binary64.ltb (Binary64.of_nat 1000) (Binary64.of_nat 3) = false
  /\ step64 (SFopp Binary64.maxValue) Binary64.maxValue (Binary64.of_nat 3)
     = S754_infinity false
  /\ xValues64 (SFopp Binary64.maxValue) Binary64.maxValue (Binary64.of_nat 3)
     = [S754_nan; S754_infinity false; S754_infinity false].
Proof. repeat split; vm_compute; reflexivity. Qed.

(** The interval [-2, 2] with 5 points: the points are -2, -1, 0, 1, 2, the
    step is finite and the last point is within the tolerance of 2. *)
Lemma sampler_points_binary64_witness :
  List.length (xValues64 (Binary64.of_Z (-2)) (Binary64.of_Z 2)
                         (Binary64.of_nat 5)) = 5%nat
  /\ xValues64 (Binary64.of_Z (-2)) (Binary64.of_Z 2) (Binary64.of_nat 5)
     = map Binary64.of_Z [-2; -1; 0; 1; 2]%Z
  /\ Binary64.isFinite
       (step64 (Binary64.of_Z (-2)) (Binary64.of_Z 2) (Binary64.of_nat 5))
     = true
  /\ (Qabs (Binary64.value (Binary64.of_Z 2)
            - Binary64.value (Binary64.of_Z 2))
      <= tolerance (Binary64.value (Binary64.of_Z (-2)))
                   (Binary64.value (Binary64.of_Z 2)))%Q.
Proof.
  destruct (sampler_points_binary64 (Binary64.of_Z (-2)) (Binary64.of_Z 2) 5
              (conj (proj1 (Nat.leb_le 2 5) eq_refl)
                    (proj1 (Nat.leb_le 5 1000) eq_refl)))
    as (Hlen & _ & _ & _ & Hlast & Hfin & _).
  split; [exact Hlen |]. split; [vm_compute; reflexivity |]. split.
  - apply Hfin; try reflexivity; vm_compute; discriminate.
  - apply (Hlast eq_refl eq_refl); [vm_compute |]; reflexivity.
Defined.

(** The interval [0, 1] with 50 points: the last point is the double just
    below 1, [1 - 2^-53]. *)
Example last_point_is_rounded :
  nth_error (xValues64 (Binary64.of_Z 0) (Binary64.of_Z 1)
                       (Binary64.of_nat 50)) 49
  = Some (S754_finite false 9007199254740991 (-53))
  /\ Binary64.of_Z 1 = S754_finite false 4503599627370496 (-52).
Proof. split; vm_compute; reflexivity. Qed.

(** C2, where the code departs from it.  Min X cleared (the field holds the
    empty string), Max X 2, 3 points, the entry [y]: the checks pass, the
    domain points are the strings [0], [1], [2], the entry compiles and its
    evaluation throws at the first point; building the message then throws
    in turn, a string having no [toFixed]: the call ends with that
    exception, no message stored and [loading] left on. *)
Theorem evaluation_failure_without_message :
  validate Demo.runtime Demo.clearedMinUndefined = None
  /\ xValues Demo.runtime Demo.clearedMinUndefined
     = [FStr "0"; FStr "1"; FStr "2"]
  /\ compile Demo.runtime "y" = inr (Demo.Symbol "y")
  /\ evaluate Demo.runtime (Demo.Symbol "y") (FStr "0")
     = inl "Undefined symbol y"
  /\ call_toFixed Demo.runtime (FStr "0")
     = inl "TypeError: toFixed is not a function"
  /\ (exists st',
        plotGraph Demo.runtime Demo.clearedMinUndefined
        = Rejected st' "TypeError: toFixed is not a function"
        /\ errorMessage st' = ""
        /\ loading st' = true
        /\ chartInstance st' = None).
Proof.
  repeat split; try (vm_compute; reflexivity).
  eexists. split; [vm_compute; reflexivity |].
  repeat split; reflexivity.
Qed.



(** A parse error with a chart on the canvas: the chart stays. *)
Lemma error_leaves_chart_witness :
  chartInstance (final (plotGraph Demo.runtime Demo.unfinished))
  = Some Demo.oldChart
  /\ destroyed (final (plotGraph Demo.runtime Demo.unfinished)) = [].
Proof.
  destruct (proj1 (error_leaves_chart Demo.runtime Demo.unfinished)
              (final (plotGraph Demo.runtime Demo.unfinished)))
    as (_ & Hc & Hd).
  - vm_compute. reflexivity.
  - vm_compute. discriminate.
  - split; [exact Hc | exact Hd].
Defined.

(** Bounds 5 and 1. *)
Lemma range_check_witness :
  plotGraph Demo.runtime Demo.reversed
  = Fulfilled (set_errorMessage Demo.reversed msgRange).
Proof.
  refine (proj2 (range_check Demo.runtime Demo.reversed eq_refl _)).
  right. right. exists (Qc_of_Z 5), (Qc_of_Z 1).
  split; [reflexivity |]. split; [reflexivity |].
  vm_compute. discriminate.
Defined.

(** One point, with valid entries and bounds. *)
Lemma sample_count_check_witness :
  exists msg,
    validate Demo.runtime Demo.onePoint = Some msg
    /\ plotGraph Demo.runtime Demo.onePoint
       = Fulfilled (set_errorMessage Demo.onePoint msg)
    /\ msg = msgCount.
Proof.
  destruct (proj1 (sample_count_check Demo.runtime Demo.onePoint
                     (Qc_of_Z 1) eq_refl))
    as (msg & Hv & Hp & Hk).
  - left. vm_compute. reflexivity.
  - exists msg. split; [exact Hv |]. split; [exact Hp |].
    apply Hk; vm_compute; reflexivity.
Defined.

(** A blank entry first: the curve of the second entry has the second
    colour. *)
Lemma color_by_entry_index_witness :
  Forall2 (fun p d =>
             nth_error (expressions Demo.blankFirst) (fst p) = Some (snd p)
             /\ blank (snd p) = false
             /\ label d = ("y = " ++ value (snd p))%string
             /\ borderColor d
                = nth (fst p mod List.length lineColors) lineColors "")
          (plotted 0 (expressions Demo.blankFirst))
          (chartDatasets (plotGraph Demo.runtime Demo.blankFirst)).
Proof.
  refine (proj1 (color_by_entry_index Demo.runtime
                   (xValues Demo.runtime Demo.blankFirst)
                   (expressions Demo.blankFirst)
                   (chartDatasets (plotGraph Demo.runtime Demo.blankFirst))
                   _)).
  vm_compute. reflexivity.
Defined.

(** The text [X = 3]: a letter [X], point radius 0. *)
Lemma point_markers_by_letter_witness :
  Forall2 (fun e d =>
             label d = ("y = " ++ value e)%string
             /\ (hasLetterX (value e) -> pointRadius d = 0%nat)
             /\ (~ hasLetterX (value e) -> pointRadius d = 3%nat))
          (filter nonblank (expressions Demo.assignment))
          (chartDatasets (plotGraph Demo.runtime Demo.assignment)).
Proof.
  refine (point_markers_by_letter Demo.runtime
            (xValues Demo.runtime Demo.assignment)
            (expressions Demo.assignment)
            (chartDatasets (plotGraph Demo.runtime Demo.assignment)) _).
  vm_compute. reflexivity.
Defined.


(** * Further properties of the component *)

(** ** The palette *)

Lemma mod7_cases (i : nat) :
  (i mod 7 = 0 \/ i mod 7 = 1 \/ i mod 7 = 2 \/ i mod 7 = 3
   \/ i mod 7 = 4 \/ i mod 7 = 5 \/ i mod 7 = 6)%nat.
Proof.
  pose proof (Nat.mod_upper_bound i 7 ltac:(discriminate)). lia.
Qed.

(** X1.  [getLineColor] always returns a colour of the palette, and two
    indices get the same colour exactly when they are equal modulo 7: the
    palette repeats with period 7 and its seven colours are different. *)
Theorem palette_cycle (i j : nat) :
  In (getLineColor i) lineColors
  /\ (getLineColor i = getLineColor j <-> (i mod 7 = j mod 7)%nat).
Proof.
  unfold getLineColor. change (List.length lineColors) with 7%nat.
  split.
  - apply nth_In. change (List.length lineColors) with 7%nat.
    apply Nat.mod_upper_bound. discriminate.
  - split.
    + intros H.
      destruct (mod7_cases i) as [Hi | [Hi | [Hi | [Hi | [Hi | [Hi | Hi]]]]]];
      destruct (mod7_cases j) as [Hj | [Hj | [Hj | [Hj | [Hj | [Hj | Hj]]]]]];
      rewrite Hi, Hj in *; try reflexivity; cbn in H; discriminate H.
    + intros ->. reflexivity.
Qed.

(** ** Blank entries *)

Lemma trimEnd_empty (s : string) : trimEnd s = "" <-> allWhiteSpace s.
Proof.
  unfold allWhiteSpace. induction s as [| c s IH]; cbn [trimEnd].
  - split; [intros _ c [] | reflexivity].
  - destruct (trimEnd s) as [| a t] eqn:E.
    + destruct (is_white_space c) eqn:Hc.
      * split; [| reflexivity]. intros _ c' [<- | Hin]; [exact Hc |].
        now apply (proj1 IH).
      * split; [discriminate |]. intros H.
        rewrite (H c (or_introl eq_refl)) in Hc. discriminate.
    + split; [discriminate |]. intros H.
      assert (Hs : String a t = "").
      { apply IH. intros c' Hin. apply H. now right. }
      discriminate.
Qed.

Lemma trimStart_white_space (s : string) :
  allWhiteSpace (trimStart s) <-> allWhiteSpace s.
Proof.
  unfold allWhiteSpace. induction s as [| c s IH]; cbn [trimStart].
  - reflexivity.
  - destruct (is_white_space c) eqn:Hc; [| reflexivity].
    rewrite IH. split.
    + intros H c' [<- | Hin]; [exact Hc | now apply H].
    + intros H c' Hin. apply H. now right.
Qed.

(** ** The list of entries *)

Lemma filter_length_NoDup (i : nat) (es : list expression) :
  NoDup (map id es) ->
  (List.length es
   <= S (List.length (filter (fun e => negb (id e =? i)%nat) es)))%nat.
Proof.
  induction es as [| e es IH]; intros Hnd; [cbn; lia |].
  cbn [map] in Hnd. inversion Hnd as [| x l Hnotin Hnd']. subst.
  cbn [filter List.length].
  destruct (Nat.eqb_spec (id e) i) as [He | He]; cbn [negb List.length].
  - assert (Hall : filter (fun e' => negb (id e' =? i)%nat) es = es).
    { apply forallb_filter_id. apply forallb_forall. intros e' Hin.
      destruct (Nat.eqb_spec (id e') i) as [He' | He']; [| reflexivity].
      exfalso. apply Hnotin. rewrite He, <- He'. now apply in_map. }
    rewrite Hall. lia.
  - specialize (IH Hnd'). lia.
Qed.

Lemma addExpression_wellFormed (st : state) :
  wellFormed st -> wellFormed (addExpression st).
Proof.
  intros (Hne & Hnd & Hlt). unfold wellFormed, addExpression.
  cbn [expressions nextExprId set_expressions].
  split; [| split].
  - intros H. apply app_eq_nil in H. destruct H as [_ H]. discriminate.
  - rewrite map_app. cbn [map id].
    rewrite <- (rev_involutive (map id (expressions st) ++ [nextExprId st])).
    apply NoDup_rev. rewrite rev_app_distr. cbn [rev app].
    constructor.
    + rewrite <- in_rev. intros Hin. apply in_map_iff in Hin.
      destruct Hin as (e & He & Hin).
      rewrite Forall_forall in Hlt. specialize (Hlt e Hin). lia.
    + now apply NoDup_rev.
  - apply Forall_app. split.
    + eapply Forall_impl; [| exact Hlt]. cbn. intros e He. lia.
    + constructor; [cbn; lia | constructor].
Qed.

Lemma removeExpression_wellFormed (i : nat) (st : state) :
  wellFormed st -> wellFormed (removeExpression i st).
Proof.
  intros (Hne & Hnd & Hlt). unfold removeExpression.
  destruct (Nat.ltb_spec 1 (List.length (expressions st))) as [Hlen | Hlen];
    [| now repeat split].
  unfold wellFormed. cbn [expressions nextExprId set_expressions].
  split; [| split].
  - intros H. pose proof (filter_length_NoDup i (expressions st) Hnd) as Hl.
    rewrite H in Hl. cbn in Hl. lia.
  - clear Hne Hlt Hlen.
    induction (expressions st) as [| e es IH]; [constructor |].
    cbn [map] in Hnd. inversion Hnd as [| x l Hnotin Hnd']. subst.
    cbn [filter]. destruct (negb (id e =? i)%nat); [| now apply IH].
    cbn [map]. constructor; [| now apply IH].
    intros Hin. apply Hnotin. apply in_map_iff in Hin.
    destruct Hin as (e' & He' & Hin). apply filter_In in Hin.
    rewrite <- He'. apply in_map. tauto.
  - apply Forall_forall. intros e Hin. apply filter_In in Hin.
    rewrite Forall_forall in Hlt. now apply Hlt.
Qed.

(** X3.  Adding and removing entries, in any order and with any ids, keeps
    the list of entries as the script block needs it: never empty, ids all
    different, and all below the next id to hand out. *)
Theorem edits_keep_entries_well_formed (edits : list edit) (st : state) :
  wellFormed st -> wellFormed (applyEdits edits st).
Proof.
  revert st. induction edits as [| a edits IH]; intros st H; [exact H |].
  cbn [applyEdits fold_left]. apply IH.
  destruct a; [now apply addExpression_wellFormed
              | now apply removeExpression_wellFormed].
Qed.

(** X4.  Removing the entry that was just added gives back the entries
    there were; only the next id has moved on. *)
Theorem remove_undoes_add (st : state) :
  wellFormed st ->
  expressions (removeExpression (nextExprId st) (addExpression st))
  = expressions st
  /\ nextExprId (removeExpression (nextExprId st) (addExpression st))
     = S (nextExprId st).
Proof.
  intros (Hne & _ & Hlt). unfold removeExpression, addExpression.
  cbn [expressions nextExprId set_expressions].
  rewrite length_app. cbn [List.length].
  destruct (Nat.ltb_spec 1 (List.length (expressions st) + 1)) as [_ | Hlen].
  - cbn [expressions nextExprId set_expressions]. split; [| reflexivity].
    rewrite filter_app. cbn [filter id]. rewrite Nat.eqb_refl. cbn [negb].
    rewrite app_nil_r. apply forallb_filter_id. apply forallb_forall.
    intros e Hin. rewrite Forall_forall in Hlt. specialize (Hlt e Hin).
    destruct (Nat.eqb_spec (id e) (nextExprId st)); [lia | reflexivity].
  - destruct (expressions st); [congruence | cbn in Hlen; lia].
Qed.

(** X5.  With more than one entry and ids all different, removing the id of
    an entry takes exactly that entry out: the list is one shorter, the
    entry is gone, every other entry is still there, and the order of those
    is kept. *)
Theorem remove_takes_one_entry (st : state) (e : expression) :
  (1 < List.length (expressions st))%nat ->
  NoDup (map id (expressions st)) ->
  In e (expressions st) ->
  let after := expressions (removeExpression (id e) st) in
  S (List.length after) = List.length (expressions st)
  /\ ~ In e after
  /\ (forall e', In e' (expressions st) -> e' <> e -> In e' after)
  /\ (exists before behind,
        expressions st = before ++ e :: behind /\ after = before ++ behind).
Proof.
  intros Hlen Hnd Hin after.
  assert (Hafter : after
            = filter (fun x => negb (id x =? id e)%nat) (expressions st)).
  { unfold after, removeExpression.
    destruct (Nat.ltb_spec 1 (List.length (expressions st)));
      [reflexivity | lia]. }
  assert (Hsplit : exists before behind,
            expressions st = before ++ e :: behind
            /\ after = before ++ behind).
  { rewrite Hafter. clear Hafter after Hlen.
    apply in_split in Hin. destruct Hin as (before & behind & Heq).
    exists before, behind. split; [exact Heq |].
    rewrite Heq in Hnd |- *. rewrite filter_app. cbn [filter].
    rewrite Nat.eqb_refl. cbn [negb].
    rewrite map_app in Hnd. cbn [map] in Hnd.
    pose proof (NoDup_remove_2 _ _ _ Hnd) as Hnotin.
    assert (Hkeep : forall l,
              incl (map id l) (map id before ++ map id behind) ->
              filter (fun x => negb (id x =? id e)%nat) l = l).
    { intros l Hl. apply forallb_filter_id. apply forallb_forall.
      intros x Hx. destruct (Nat.eqb_spec (id x) (id e)) as [E | E];
        [| reflexivity].
      exfalso. apply Hnotin. rewrite <- E. apply Hl. now apply in_map. }
    rewrite (Hkeep before), (Hkeep behind); try reflexivity.
    - apply incl_appr, incl_refl.
    - apply incl_appl, incl_refl. }
  destruct Hsplit as (before & behind & Heq & Hafter').
  split; [| split; [| split]].
  - rewrite Hafter', Heq, !length_app. cbn [List.length]. lia.
  - rewrite Hafter. intros H. apply filter_In in H. destruct H as [_ H].
    rewrite Nat.eqb_refl in H. discriminate.
  - intros e' Hin' Hne. rewrite Hafter', Heq in *.
    apply in_app_or in Hin'. apply in_or_app.
    destruct Hin' as [H | [H | H]]; [now left | congruence | now right].
  - exists before, behind. now split.
Qed.

(** ** The chart a plot leaves *)

Section Charts.

Variable R : runtime.

Lemma makeLabels_length (xs : list field) (ls : list string) :
  makeLabels R xs = inr ls -> List.length ls = List.length xs.
Proof.
  revert ls. induction xs as [| x xs IH]; intros ls H.
  - injection H as <-. reflexivity.
  - cbn [makeLabels] in H. destruct (call_toFixed R x); [discriminate |].
    destruct (makeLabels R xs) as [| ls']; [discriminate |].
    injection H as <-. cbn. now rewrite (IH ls' eq_refl).
Qed.

Lemma makeLabels_inl (xs : list field) (err : string) :
  makeLabels R xs = inl err ->
  exists x, In x xs /\ call_toFixed R x = inl err.
Proof.
  induction xs as [| x xs IH]; intros H; [discriminate |].
  cbn [makeLabels] in H. destruct (call_toFixed R x) as [e |] eqn:Hx.
  - injection H as <-. exists x. split; [now left | exact Hx].
  - destruct (makeLabels R xs) as [e |]; [| discriminate].
    injection H as <-. destruct (IH eq_refl) as (x' & Hin & Hx').
    exists x'. split; [now right | exact Hx'].
Qed.

(** The ways a call can end, with what each leaves. *)
Lemma plotGraph_cases (st : state) :
  (exists msg, validate R st = Some msg
     /\ plotGraph R st = Fulfilled (set_errorMessage st msg))
  \/ (validate R st = None
      /\ ((exists msg e,
             plotLoop R (xValues R st) (expressions st) 0 [] = inl (Return msg)
             /\ In e (expressions st) /\ blank e = false
             /\ failsWith R (xValues R st) e (Return msg)
             /\ plotGraph R st
                = Fulfilled (set_loading (set_errorMessage st msg) false))
          \/ (exists err e,
                plotLoop R (xValues R st) (expressions st) 0 []
                = inl (Throw err)
                /\ In e (expressions st) /\ blank e = false
                /\ failsWith R (xValues R st) e (Throw err)
                /\ plotGraph R st
                   = Rejected (set_loading (set_errorMessage st "") true) err)
          \/ (exists d ds,
                plotLoop R (xValues R st) (expressions st) 0 []
                = inr (d :: ds)
                /\ plotGraph R st
                   = render R (set_loading (set_errorMessage st "") true)
                       (xValues R st) (d :: ds)))).
Proof.
  unfold plotGraph. destruct (validate R st) as [msg |] eqn:Hv.
  - left. exists msg. now split.
  - right. split; [reflexivity |]. cbv zeta.
    destruct (plotLoop R (xValues R st) (expressions st) 0 [])
      as [[msg | err] | ds] eqn:Hl.
    + left. destruct (plotLoop_inl_inv R _ _ _ _ Hl) as (e & Hin & Hb & Hf).
      exists msg, e. auto.
    + right. left.
      destruct (plotLoop_inl_inv R _ _ _ _ Hl) as (e & Hin & Hb & Hf).
      exists err, e. auto.
    + right. right.
      pose proof (plotLoop_nonempty R st _ ds Hv Hl) as Hne.
      destruct ds as [| d ds]; [congruence |]. exists d, ds. auto.
Qed.

Lemma curveOf_length (xs : list field) (p : nat * expression) (d : dataset) :
  curveOf R xs p d -> List.length (data d) = List.length xs.
Proof. intros (c & _ & _ & ->). cbn [data makeDataset]. apply length_map. Qed.

Lemma Forall2_length_eq {A B : Type} (P : A -> B -> Prop)
  (l : list A) (l' : list B) :
  Forall2 P l l' -> List.length l = List.length l'.
Proof. intros H. induction H; cbn; congruence. Qed.

Lemma Forall2_Forall_r {A B : Type} (P : A -> B -> Prop) (Q : B -> Prop)
  (l : list A) (l' : list B) :
  (forall a b, P a b -> Q b) -> Forall2 P l l' -> Forall Q l'.
Proof. intros H HP. induction HP; constructor; eauto. Qed.

(** X7.  A call that ends without an error message, the canvas being
    mounted, leaves a new chart: one label per domain point, one dataset per
    non-blank entry, every dataset with as many samples as there are labels;
    the chart there was has been destroyed, and [loading] is off. *)
Theorem successful_plot_shape (st st' : state) :
  plotGraph R st = Fulfilled st' ->
  errorMessage st' = "" ->
  chartCanvas st = true ->
  exists ch,
    chartInstance st' = Some ch
    /\ List.length (labels ch) = List.length (xValues R st)
    /\ List.length (datasets ch)
       = List.length (filter nonblank (expressions st))
    /\ Forall (fun d => List.length (data d) = List.length (labels ch))
              (datasets ch)
    /\ destroyed st' = destroyChart st
    /\ loading st' = false.
Proof.
  intros Hp Hmsg Hcanvas.
  destruct (plotGraph_cases st)
    as [(msg & Hv & H) | (Hv & [(msg & e & _ & _ & _ & Hf & H)
                               | [(err & e & _ & _ & _ & _ & H)
                                 | (d & ds & Hl & H)]])];
    rewrite H in Hp.
  - injection Hp as <-. cbn [errorMessage set_errorMessage] in Hmsg.
    destruct (validate_Some R st msg Hv) as [-> | [-> | ->]]; discriminate.
  - injection Hp as <-.
    cbn [errorMessage set_errorMessage set_loading] in Hmsg.
    apply failsWith_message in Hf. tauto.
  - discriminate.
  - unfold render in Hp.
    cbn [chartCanvas set_chart set_loading set_errorMessage] in Hp.
    rewrite Hcanvas in Hp.
    destruct (makeLabels R (xValues R st)) as [err | ls] eqn:Hls;
      [discriminate |].
    injection Hp as <-. eexists. split; [reflexivity |].
    cbn [labels datasets destroyed loading chartInstance set_chart
         set_loading set_errorMessage destroyChart].
    apply plotLoop_inr in Hl.
    rewrite (makeLabels_length _ _ Hls).
    split; [reflexivity |]. split.
    + rewrite <- (plotted_filter (expressions st) 0), length_map.
      symmetry. exact (Forall2_length_eq _ _ _ Hl).
    + split; [| split; reflexivity].
      eapply Forall2_Forall_r; [| exact Hl].
      intros p d'. apply curveOf_length.
Qed.

(** X9.  A call ends with an uncaught exception only when [minX] holds a
    string; it then leaves [loading] on and no error message. *)
Theorem rejected_only_with_string_bound (st st' : state) (err : string) :
  plotGraph R st = Rejected st' err ->
  (exists s, minX st = FStr s)
  /\ loading st' = true
  /\ errorMessage st' = "".
Proof.
  intros Hp.
  assert (Hstr : validate R st = None ->
            (exists x, In x (xValues R st) /\ call_toFixed R x = inl err) ->
            exists s, minX st = FStr s).
  { intros Hv (x & Hx & Hcall).
    destruct (minX st) as [| a | s] eqn:Ha.
    - apply validate_None in Hv. destruct Hv as (_ & Hv & _).
      rewrite Ha in Hv. discriminate.
    - destruct (xValues_numeric R st a x Ha Hx) as [n ->]. discriminate.
    - now exists s. }
  destruct (plotGraph_cases st)
    as [(msg & Hv & H) | (Hv & [(msg & e & _ & _ & _ & _ & H)
                               | [(err' & e & _ & _ & _ & Hf & H)
                                 | (d & ds & Hl & H)]])];
    rewrite H in Hp; try discriminate.
  - injection Hp as <- <-. split; [| split; reflexivity].
    apply (Hstr Hv).
    destruct Hf as [(m & _ & Hm) | (c & x & m & _ & Hx & _ & Hex)];
      [discriminate |].
    exists x. split; [exact Hx |].
    destruct (call_toFixed R x); [congruence | discriminate].
  - unfold render in Hp.
    cbn [chartCanvas set_chart set_loading set_errorMessage] in Hp.
    destruct (chartCanvas st); [| discriminate].
    destruct (makeLabels R (xValues R st)) as [err' | ls] eqn:Hls;
      [| discriminate].
    injection Hp as <- <-. split; [| split; reflexivity].
    apply (Hstr Hv). now apply makeLabels_inl.
Qed.

(** X16.  Whatever way a call ends, it leaves the entries, the next id, the
    two bounds, the sample count and the canvas as they were. *)
Theorem plot_keeps_inputs (st : state) :
  let st' := final (plotGraph R st) in
  expressions st' = expressions st
  /\ nextExprId st' = nextExprId st
  /\ minX st' = minX st
  /\ maxX st' = maxX st
  /\ numPoints st' = numPoints st
  /\ chartCanvas st' = chartCanvas st.
Proof.
  cbv zeta.
  destruct (plotGraph_cases st)
    as [(msg & _ & H) | (_ & [(msg & e & _ & _ & _ & _ & H)
                             | [(err & e & _ & _ & _ & _ & H)
                               | (d & ds & _ & H)]])];
    rewrite H.
  1-3: repeat split; reflexivity.
  unfold render. cbn [chartCanvas set_chart set_loading set_errorMessage].
  destruct (chartCanvas st) eqn:Hc.
  - destruct (makeLabels R (xValues R st));
      repeat split; try reflexivity; exact Hc.
  - repeat split; try reflexivity; exact Hc.
Qed.

End Charts.

(** ** Mounting *)

Section Mount.

Variable R : runtime.

Lemma existsb_nonblank (es : list expression) :
  existsb (fun e => truthy (trim (value e))) es = negb (forallb blank es).
Proof.
  induction es as [| e es IH]; [reflexivity |].
  cbn [existsb forallb]. rewrite IH. unfold blank.
  destruct (truthy (trim (value e))); reflexivity.
Qed.

(** X14.  On mount the component plots exactly when some entry is
    non-blank; with blank entries only it does nothing at all, and in
    particular shows no message.  Mounting never brings up the message that
    asks for an expression. *)
Theorem mount_plots_unless_blank (st : state) :
  (forallb blank (expressions st) = true -> onMounted R st = Fulfilled st)
  /\ (forallb blank (expressions st) = false ->
      onMounted R st = plotGraph R st)
  /\ (errorMessage st <> msgEmpty ->
      errorMessage (final (onMounted R st)) <> msgEmpty).
Proof.
  unfold onMounted. rewrite existsb_nonblank.
  destruct (forallb blank (expressions st)) eqn:Hb; cbn [negb].
  - repeat split; try reflexivity; try discriminate. intros H. exact H.
  - split; [discriminate |]. split; [reflexivity |]. intros _.
    destruct (plotGraph_cases R st)
      as [(msg & Hv & H) | (Hv & [(msg & e & _ & _ & _ & Hf & H)
                                 | [(err & e & _ & _ & _ & _ & H)
                                   | (d & ds & _ & H)]])];
      rewrite H.
    + cbn [final errorMessage set_errorMessage]. intros ->.
      unfold validate in Hv. rewrite Hb in Hv.
      destruct (is_null (minX st) || is_null (maxX st)
                || js_ge R (minX st) (maxX st))%bool; [discriminate |].
      destruct (js_lt R (numPoints st) (FNum (of_Z 2))
                || js_gt R (numPoints st) (FNum (of_Z 1000)))%bool;
        discriminate.
    + cbn [final errorMessage set_errorMessage set_loading]. intros ->.
      destruct Hf as [(m & _ & Hm) | (c & x & m & _ & _ & _ & Hm)].
      * discriminate.
      * destruct (call_toFixed R x); discriminate.
    + cbn [final errorMessage set_errorMessage set_loading]. discriminate.
    + unfold render.
      cbn [chartCanvas set_chart set_loading set_errorMessage].
      destruct (chartCanvas st);
        [destruct (makeLabels R (xValues R st)) |];
        cbn [final errorMessage set_chart set_errorMessage set_loading];
        discriminate.
Qed.

End Mount.

(** ** The first failure, the colours of a plot *)

Section FirstFailure.

Variable R : runtime.

Lemma evalPoints_first_throw (c : compiled R) (text : string)
  (xs1 xs2 : list field) (x : field) (m : string) :
  (forall x', In x' xs1 -> exists y, evaluate R c x' = inr y) ->
  evaluate R c x = inl m ->
  evalPoints R c text (xs1 ++ x :: xs2) []
  = inl (match call_toFixed R x with
         | inr sx => Return (msgEval text sx m)
         | inl err => Throw err
         end).
Proof.
  intros Hok Hx. rewrite evalPoints_app, (evalPoints_total R c text xs1 Hok).
  cbn [andThen evalPoints]. rewrite Hx.
  destruct (call_toFixed R x); reflexivity.
Qed.

Lemma plotLoop_skip_good (xs : list field) (before rest : list expression)
  (ex : exit) :
  (forall e', In e' before ->
     blank e' = true
     \/ exists c, compile R (value e') = inr c
                  /\ forall x, In x xs -> exists y, evaluate R c x = inr y) ->
  (forall j acc, plotLoop R xs rest j acc = inl ex) ->
  forall i acc, plotLoop R xs (before ++ rest) i acc = inl ex.
Proof.
  intros Hgood Hrest. induction before as [| e before IH]; intros i acc.
  - apply Hrest.
  - cbn [app plotLoop].
    assert (IH' : forall i acc, plotLoop R xs (before ++ rest) i acc = inl ex).
    { apply IH. intros e' Hin. apply Hgood. now right. }
    destruct (blank e) eqn:Hb; [apply IH' |].
    destruct (Hgood e (or_introl eq_refl)) as [Hb' | (c & Hc & Hall)];
      [congruence |].
    rewrite Hc, (evalPoints_total R c (value e) xs Hall). apply IH'.
Qed.

(** X13.  The message of a failing plot is that of the first failure met:
    when the entries before [e] are blank or compile and evaluate at every
    point, a non-blank [e] that does not compile ends the loop with its
    parse message, and an [e] that compiles ends it at the first point
    where its evaluation throws; the entries after [e] play no part. *)
Theorem first_error_wins (xs : list field) (before behind : list expression)
  (e : expression) :
  (forall e', In e' before ->
     blank e' = true
     \/ exists c, compile R (value e') = inr c
                  /\ forall x, In x xs -> exists y, evaluate R c x = inr y) ->
  blank e = false ->
  (forall m,
     compile R (value e) = inl m ->
     plotLoop R xs (before ++ e :: behind) 0 []
     = inl (Return (msgParse (value e) m)))
  /\ (forall c xs1 x xs2 m,
        compile R (value e) = inr c ->
        xs = xs1 ++ x :: xs2 ->
        (forall x', In x' xs1 -> exists y, evaluate R c x' = inr y) ->
        evaluate R c x = inl m ->
        plotLoop R xs (before ++ e :: behind) 0 []
        = inl (match call_toFixed R x with
               | inr sx => Return (msgEval (value e) sx m)
               | inl err => Throw err
               end)).
Proof.
  intros Hgood Hb. split.
  - intros m Hc. apply plotLoop_skip_good; [exact Hgood |].
    intros j acc. cbn [plotLoop]. now rewrite Hb, Hc.
  - intros c xs1 x xs2 m Hc Hxs Hok Hx.
    apply plotLoop_skip_good; [exact Hgood |].
    intros j acc. cbn [plotLoop]. rewrite Hb, Hc. subst xs.
    now rewrite (evalPoints_first_throw c (value e) xs1 xs2 x m Hok Hx).
Qed.

Lemma plotted_NoDup (exprs : list expression) :
  forall i, NoDup (map fst (plotted i exprs)).
Proof.
  induction exprs as [| e rest IH]; intros i; [constructor |].
  rewrite plotted_cons. destruct (blank e); [apply IH |].
  cbn [map fst]. constructor; [| apply IH].
  intros Hin. apply in_map_iff in Hin. destruct Hin as ([j e'] & Hj & Hin).
  cbn [fst] in Hj. subst j.
  pose proof (plotted_index rest (S i)) as Hidx.
  rewrite Forall_forall in Hidx. specialize (Hidx _ Hin).
  cbn [fst] in Hidx. lia.
Qed.

Lemma plotted_bound (exprs : list expression) (i : nat) (p : nat * expression) :
  In p (plotted i exprs) -> (fst p < i + List.length exprs)%nat.
Proof.
  intros Hin. pose proof (plotted_index exprs i) as Hidx.
  rewrite Forall_forall in Hidx. destruct (Hidx p Hin) as (Hle & Hnth & _).
  assert (H : (fst p - i < List.length exprs)%nat).
  { apply nth_error_Some. rewrite Hnth. discriminate. }
  lia.
Qed.

Lemma plotLoop_colors (xs : list field) (exprs : list expression)
  (ds : list dataset) :
  plotLoop R xs exprs 0 [] = inr ds ->
  map borderColor ds = map (fun p => getLineColor (fst p)) (plotted 0 exprs).
Proof.
  intros H. apply plotLoop_inr in H.
  induction H as [| p d ps ds' Hc _ IH]; [reflexivity |].
  cbn [map]. rewrite IH. destruct Hc as (c & _ & _ & ->). reflexivity.
Qed.

(** X2.  With at most seven entries, the curves of a plot all have different
    colours. *)
Theorem distinct_colors_up_to_seven (xs : list field)
  (exprs : list expression) (ds : list dataset) :
  plotLoop R xs exprs 0 [] = inr ds ->
  (List.length exprs <= 7)%nat ->
  NoDup (map borderColor ds).
Proof.
  intros H Hlen. rewrite (plotLoop_colors xs exprs ds H).
  assert (Hb : forall p, In p (plotted 0 exprs) -> (fst p < 7)%nat).
  { intros p Hin. apply plotted_bound in Hin. lia. }
  pose proof (plotted_NoDup exprs 0) as Hnd.
  induction (plotted 0 exprs) as [| p ps IH]; [constructor |].
  cbn [map] in *. inversion Hnd as [| x l Hnotin Hnd']. subst.
  constructor; [| apply IH; [intros q Hq; apply Hb; now right | exact Hnd']].
  intros Hin. apply in_map_iff in Hin. destruct Hin as (p' & Hcol & Hin').
  apply Hnotin. apply in_map_iff. exists p'. split; [| exact Hin'].
  pose proof (Hb p (or_introl eq_refl)) as Hp.
  pose proof (Hb p' (or_intror Hin')) as Hp'.
  unfold getLineColor in Hcol.
  change (List.length lineColors) with 7%nat in Hcol.
  rewrite !Nat.mod_small in Hcol by assumption.
  destruct (fst p') as [| [| [| [| [| [| [| n']]]]]]]; try lia;
  destruct (fst p) as [| [| [| [| [| [| [| n]]]]]]]; try lia;
    try reflexivity; cbn in Hcol; discriminate Hcol.
Qed.

End FirstFailure.

(** ** The sampling loop at its edges *)

Section SamplingEdges.

Local Open Scope Qc_scope.

Variable R : runtime.

Lemma pushPoints_length (st : state) :
  forall fuel i acc,
    (List.length (pushPoints R st fuel i acc) <= List.length acc + fuel)%nat.
Proof.
  induction fuel as [| fuel IH]; intros i acc; cbn [pushPoints]; [lia |].
  destruct (js_lt R (FNum (of_nat i)) (numPoints st)); [| lia].
  specialize (IH (S i) (acc ++ [js_add R (minX st)
                                  (Num.mul (of_nat i) (step R st))])).
  rewrite length_app in IH. cbn [List.length] in IH. lia.
Qed.

(** X11.  Once the sample count has passed its check, the sampling loop
    stops by its own condition within 1000 turns: running it with any larger
    bound on the number of turns gives the same domain points, and there are
    at most 1000 of them. *)
Theorem sampling_loop_bounded (st : state) :
  js_gt R (numPoints st) (FNum (of_Z 1000)) = false ->
  (forall fuel, (1000 <= fuel)%nat -> pushPoints R st fuel 0 [] = xValues R st)
  /\ (List.length (xValues R st) <= 1000)%nat.
Proof.
  intros Hgt. split.
  - intros fuel Hf. now apply pushPoints_fuel.
  - rewrite <- xValues_unfold.
    pose proof (pushPoints_length st maxPoints 0 []) as H.
    cbn [List.length] in H. unfold maxPoints in H at 2. lia.
Qed.

Lemma Qc_of_nat_lt_iff (i : nat) (q : Qc) :
  Qc_of_nat i < q <-> (Z.of_nat i < Qceiling q)%Z.
Proof.
  unfold Qclt, Qc_of_nat. rewrite Q2Qc_this. split.
  - intros H. rewrite Zlt_Qlt.
    eapply Qlt_le_trans; [exact H | apply Qle_ceiling].
  - intros H.
    assert (H' : (Z.of_nat i <= Qceiling q - 1)%Z) by lia.
    rewrite Zle_Qle in H'.
    eapply Qle_lt_trans; [exact H' | apply Qceiling_lt].
Qed.

Lemma ltb_counter (i : nat) (q : Qc) :
  Num.ltb (of_nat i) (Fin q) = (i <? Z.to_nat (Qceiling q))%nat.
Proof.
  rewrite of_nat_Fin.
  destruct (Nat.ltb_spec i (Z.to_nat (Qceiling q))) as [H | H].
  - apply ltb_Fin, Qc_of_nat_lt_iff. lia.
  - destruct (Num.ltb (Fin (Qc_of_nat i)) (Fin q)) eqn:E; [| reflexivity].
    apply ltb_Fin, Qc_of_nat_lt_iff in E. lia.
Qed.

Lemma pushPoints_count_fraction (st : state) (q : Qc) :
  numPoints st = FNum (Fin q) ->
  forall fuel i acc,
    (Z.to_nat (Qceiling q) - i <= fuel)%nat ->
    pushPoints R st fuel i acc
    = acc ++ map (point R st) (seq i (Z.to_nat (Qceiling q) - i)).
Proof.
  intros Hn. set (n := Z.to_nat (Qceiling q)).
  induction fuel as [| fuel IH]; intros i acc Hf.
  - replace (n - i)%nat with 0%nat by lia. cbn. now rewrite app_nil_r.
  - cbn [pushPoints]. rewrite Hn. cbn [js_lt ToNumber]. rewrite ltb_counter.
    fold n. destruct (Nat.ltb_spec i n) as [Hlt | Hge].
    + rewrite IH by lia.
      replace (n - i)%nat with (S (n - S i)) by lia.
      cbn [seq map]. rewrite <- app_assoc. reflexivity.
    + replace (n - i)%nat with 0%nat by lia. cbn. now rewrite app_nil_r.
Qed.

Lemma Qc_of_Z_le_ceiling (q : Qc) (z : Z) :
  q <= Qc_of_Z z -> (Qceiling q <= z)%Z.
Proof.
  unfold Qcle, Qc_of_Z. rewrite Q2Qc_this. intros H.
  apply Qceiling_resp_le in H. now rewrite Qceiling_Z in H.
Qed.

Lemma Qc_of_Z_ge_ceiling (q : Qc) (z : Z) :
  Qc_of_Z z <= q -> (z <= Qceiling q)%Z.
Proof.
  unfold Qcle, Qc_of_Z. rewrite Q2Qc_this. intros H.
  rewrite Zle_Qle. eapply Qle_trans; [exact H | apply Qle_ceiling].
Qed.

(** X12.  The sample count is not required to be whole: a count [q] from
    2 to 1000 passes the check of lines 122-125, whole or not, and the loop
    then pushes as many points as [q] rounded up, between 2 and 1000 of
    them. *)
Theorem fractional_count_rounds_up (st : state) (q : Qc) :
  numPoints st = FNum (Fin q) ->
  Qc_of_Z 2 <= q <= Qc_of_Z 1000 ->
  (js_lt R (numPoints st) (FNum (of_Z 2))
   || js_gt R (numPoints st) (FNum (of_Z 1000)))%bool = false
  /\ List.length (xValues R st) = Z.to_nat (Qceiling q)
  /\ (2 <= Z.to_nat (Qceiling q) <= 1000)%nat.
Proof.
  intros Hn [Hlo Hhi].
  pose proof (Qc_of_Z_le_ceiling q 1000 Hhi) as Hn_hi.
  pose proof (Qc_of_Z_ge_ceiling q 2 Hlo) as Hn_lo.
  split; [| split; [| lia]].
  - rewrite Hn. unfold js_gt. cbn [js_lt ToNumber].
    change (of_Z 2) with (Fin (Qc_of_Z 2)).
    change (of_Z 1000) with (Fin (Qc_of_Z 1000)).
    apply orb_false_iff. split.
    + destruct (Num.ltb (Fin q) (Fin (Qc_of_Z 2))) eqn:E; [| reflexivity].
      apply ltb_Fin in E. exfalso. exact (Qcle_not_lt _ _ Hlo E).
    + destruct (Num.ltb (Fin (Qc_of_Z 1000)) (Fin q)) eqn:E; [| reflexivity].
      apply ltb_Fin in E. exfalso. exact (Qcle_not_lt _ _ Hhi E).
  - rewrite <- xValues_unfold.
    rewrite (pushPoints_count_fraction st q Hn) by (unfold maxPoints; lia).
    cbn [app]. now rewrite length_map, length_seq, Nat.sub_0_r.
Qed.

End SamplingEdges.

(** ** A field left as a string *)

Section ClearedFields.

Local Open Scope Qc_scope.

Variable R : runtime.

Lemma ToNumber_cleared (s : string) :
  allWhiteSpace s -> ToNumber R (FStr s) = Fin 0.
Proof.
  intros H. cbn [ToNumber]. unfold trim.
  apply trimStart_white_space, trimEnd_empty in H. now rewrite H.
Qed.

Lemma xValues_strings (st : state) (s : string) (x : field) :
  minX st = FStr s -> In x (xValues R st) -> exists t, x = FStr t.
Proof.
  intros Ha H. rewrite <- xValues_unfold in H.
  apply (pushPoints_In R st x maxPoints 0 []) in H.
  destruct H as [[] | [j ->]].
  unfold point. rewrite Ha. cbn [js_add]. eauto.
Qed.

Lemma pushPoints_keeps (st : state) :
  forall fuel i acc,
    (List.length acc <= List.length (pushPoints R st fuel i acc))%nat.
Proof.
  induction fuel as [| fuel IH]; intros i acc; cbn [pushPoints]; [lia |].
  destruct (js_lt R (FNum (of_nat i)) (numPoints st)); [| lia].
  specialize (IH (S i) (acc ++ [js_add R (minX st)
                                  (Num.mul (of_nat i) (step R st))])).
  rewrite length_app in IH. cbn [List.length] in IH. lia.
Qed.

Lemma pushPoints_turn (st : state) (fuel i : nat) (acc : list field) :
  pushPoints R st (S fuel) i acc
  = if js_lt R (FNum (of_nat i)) (numPoints st)
    then pushPoints R st fuel (S i)
           (acc ++ [js_add R (minX st) (Num.mul (of_nat i) (step R st))])
    else acc.
Proof. reflexivity. Qed.

Lemma xValues_nonempty (st : state) (q : Qc) :
  numPoints st = FNum (Fin q) -> 0 < q -> xValues R st <> [].
Proof.
  intros Hn Hq. rewrite <- xValues_unfold. unfold maxPoints.
  rewrite pushPoints_turn, Hn. cbn [js_lt ToNumber].
  assert (Hlt : Num.ltb (of_nat 0) (Fin q) = true).
  { rewrite of_nat_Fin, Qc_of_nat_0. now apply ltb_Fin. }
  rewrite Hlt. intros E.
  match goal with
  | E : pushPoints R st ?f ?i ?acc = [] |- _ =>
      pose proof (pushPoints_keeps st f i acc) as Hk; rewrite E in Hk
  end.
  rewrite length_app in Hk. cbn [List.length] in Hk. lia.
Qed.

Lemma makeLabels_strings (xs : list field) :
  xs <> [] -> (forall x, In x xs -> exists t, x = FStr t) ->
  exists err, makeLabels R xs = inl err.
Proof.
  intros Hne Hall. destruct xs as [| x xs]; [congruence |].
  destruct (Hall x (or_introl eq_refl)) as [t ->].
  cbn [makeLabels call_toFixed]. eauto.
Qed.

(** X10.  With [minX] left as a string and at least one domain point, a
    call never puts a new chart in place; with the canvas mounted it is
    either rejected or ends with an error message. *)
Theorem string_bound_never_draws (st : state) (s : string) (q : Qc) :
  minX st = FStr s ->
  numPoints st = FNum (Fin q) -> 0 < q ->
  chartInstance (final (plotGraph R st)) = chartInstance st
  /\ (chartCanvas st = true ->
      forall st', plotGraph R st = Fulfilled st' -> errorMessage st' <> "").
Proof.
  intros Ha Hn Hq.
  pose proof (xValues_nonempty st q Hn Hq) as Hne.
  destruct (makeLabels_strings (xValues R st) Hne) as [err0 Hls].
  { intros x Hx. exact (xValues_strings st s x Ha Hx). }
  destruct (plotGraph_cases R st)
    as [(msg & Hv & H) | (Hv & [(msg & e & _ & _ & _ & Hf & H)
                               | [(err & e & _ & _ & _ & _ & H)
                                 | (d & ds & _ & H)]])];
    rewrite H.
  - split; [reflexivity |]. intros _ st' [= <-].
    cbn [errorMessage set_errorMessage].
    destruct (validate_Some R st msg Hv) as [-> | [-> | ->]]; discriminate.
  - split; [reflexivity |]. intros _ st' [= <-].
    cbn [errorMessage set_errorMessage set_loading].
    apply failsWith_message in Hf. tauto.
  - split; [reflexivity | discriminate].
  - unfold render.
    cbn [chartCanvas set_chart set_loading set_errorMessage].
    destruct (chartCanvas st).
    + rewrite Hls. split; [reflexivity | discriminate].
    + split; [reflexivity | discriminate].
Qed.

(** X15.  A field whose text is white space only (a cleared field) is read
    as the number 0 by the checks.  As the sample count it is always
    refused.  As a bound, with a non-blank entry and a sample count that
    passes its check, validation passes exactly when the other bound is on
    the right side of 0: a finite [minX] below 0 when [maxX] is cleared, a
    finite [maxX] above 0 when [minX] is cleared. *)
Theorem cleared_field_reads_as_zero (st : state) (s : string) :
  allWhiteSpace s ->
  (numPoints st = FStr s -> validate R st <> None)
  /\ (forallb blank (expressions st) = false ->
      (js_lt R (numPoints st) (FNum (of_Z 2))
       || js_gt R (numPoints st) (FNum (of_Z 1000)))%bool = false ->
      (forall a, minX st = FNum (Fin a) -> maxX st = FStr s ->
                 (validate R st = None <-> a < 0))
      /\ (forall b, minX st = FStr s -> maxX st = FNum (Fin b) ->
                    (validate R st = None <-> 0 < b))).
Proof.
  intros Hs. pose proof (ToNumber_cleared s Hs) as H0. split.
  - intros Hn Hv. apply validate_None in Hv. destruct Hv as (_ & _ & Hc).
    rewrite Hn in Hc. apply orb_false_iff in Hc. destruct Hc as [Hc _].
    unfold js_lt in Hc. rewrite H0 in Hc. discriminate.
  - intros Hb Hc. unfold validate. rewrite Hb, Hc. split.
    + intros a Ha Hm. rewrite Ha, Hm. cbn [is_null orb]. unfold js_ge.
      rewrite H0. cbn [ToNumber Num.geb Num.ltb].
      destruct (a ?= 0) eqn:E; cbn [negb].
      * split; [discriminate | intros H;
                 pose proof (proj1 (Qclt_alt _ _) H); congruence].
      * split; [intros _; exact (proj2 (Qclt_alt _ _) E) | reflexivity].
      * split; [discriminate | intros H;
                 pose proof (proj1 (Qclt_alt _ _) H); congruence].
    + intros b Hm Hx. rewrite Hm, Hx. cbn [is_null orb]. unfold js_ge.
      rewrite H0. cbn [ToNumber Num.geb Num.ltb].
      destruct (0 ?= b) eqn:E; cbn [negb].
      * split; [discriminate | intros H;
                 pose proof (proj1 (Qclt_alt _ _) H); congruence].
      * split; [intros _; exact (proj2 (Qclt_alt _ _) E) | reflexivity].
      * split; [discriminate | intros H;
                 pose proof (proj1 (Qclt_alt _ _) H); congruence].
Qed.

End ClearedFields.

(** ** Further concrete inputs *)

Lemma initial_wellFormed : wellFormed initial.
Proof.
  split; [discriminate |]. split.
  - constructor; [intros [] | constructor].
  - constructor; [cbn; lia | constructor].
Qed.

(** Two rows added, three removals asked for. *)
Lemma edits_keep_entries_well_formed_witness :
  wellFormed
    (applyEdits [AddRow; AddRow; RemoveRow 1; RemoveRow 3; RemoveRow 2]
       initial).
Proof.
  exact (edits_keep_entries_well_formed
           [AddRow; AddRow; RemoveRow 1; RemoveRow 3; RemoveRow 2]
           initial initial_wellFormed).
Defined.

Lemma remove_undoes_add_witness :
  expressions (removeExpression 2 (addExpression initial))
  = expressions initial.
Proof.
  exact (proj1 (remove_undoes_add initial initial_wellFormed)).
Defined.

(** Two entries, the first removed. *)
Lemma remove_takes_one_entry_witness :
  S (List.length (expressions (removeExpression 1 (addExpression initial))))
  = 2%nat.
Proof.
  refine (proj1 (remove_takes_one_entry (addExpression initial)
                   {| id := 1; value := "x^2" |} _ _ _)).
  - cbn. lia.
  - cbn. repeat constructor; cbn; intuition discriminate.
  - left. reflexivity.
Defined.

Lemma successful_plot_shape_witness :
  exists ch,
    chartInstance (final (plotGraph Demo.runtime Demo.parabola)) = Some ch
    /\ List.length (labels ch) = 5%nat
    /\ List.length (datasets ch) = 1%nat.
Proof.
  destruct (successful_plot_shape Demo.runtime Demo.parabola
              (final (plotGraph Demo.runtime Demo.parabola)))
    as (ch & Hc & Hl & Hd & _).
  - vm_compute. reflexivity.
  - vm_compute. reflexivity.
  - reflexivity.
  - exists ch. split; [exact Hc |]. split.
    + rewrite Hl. vm_compute. reflexivity.
    + rewrite Hd. vm_compute. reflexivity.
Defined.

(** A cleared lower bound: the call is rejected. *)
Lemma rejected_only_with_string_bound_witness :
  (exists s, minX Demo.clearedMin = FStr s)
  /\ loading (final (plotGraph Demo.runtime Demo.clearedMin)) = true.
Proof.
  destruct (plotGraph Demo.runtime Demo.clearedMin) as [st' | st' err] eqn:E;
    [vm_compute in E; discriminate |].
  destruct (rejected_only_with_string_bound Demo.runtime Demo.clearedMin
              st' err E) as (Hs & Hl & _).
  split; [exact Hs | exact Hl].
Defined.

(** The script block as it starts: mounting plots. *)
Lemma mount_plots_unless_blank_witness :
  onMounted Demo.runtime initial = plotGraph Demo.runtime initial.
Proof.
  refine (proj1 (proj2 (mount_plots_unless_blank Demo.runtime initial)) _).
  reflexivity.
Defined.

(** [x^2] is fine, [x +] does not compile. *)
Lemma first_error_wins_witness :
  plotLoop Demo.runtime (xValues Demo.runtime Demo.unfinished)
    ([{| id := 1; value := "x^2" |}]
     ++ {| id := 2; value := "x +" |} :: []) 0 []
  = inl (Return (msgParse "x +" "Unexpected end of expression (char 4)")).
Proof.
  refine (proj1 (first_error_wins Demo.runtime
                   (xValues Demo.runtime Demo.unfinished)
                   [{| id := 1; value := "x^2" |}] []
                   {| id := 2; value := "x +" |} _ eq_refl)
                _ eq_refl).
  intros e' [<- | []]. right. exists Demo.Square. split; [reflexivity |].
  intros x Hx.
  destruct (xValues_numeric Demo.runtime Demo.unfinished _ x eq_refl Hx)
    as [n ->].
  eexists. reflexivity.
Defined.

Lemma distinct_colors_up_to_seven_witness :
  NoDup (map borderColor
           (chartDatasets (plotGraph Demo.runtime Demo.threeCurves))).
Proof.
  refine (distinct_colors_up_to_seven Demo.runtime
            (xValues Demo.runtime Demo.threeCurves)
            (expressions Demo.threeCurves) _ _ _).
  - vm_compute. reflexivity.
  - cbn. lia.
Defined.

Lemma sampling_loop_bounded_witness :
  (List.length (xValues Demo.runtime Demo.parabola) <= 1000)%nat.
Proof.
  refine (proj2 (sampling_loop_bounded Demo.runtime Demo.parabola _)).
  vm_compute. reflexivity.
Defined.

(** Two points and a half: three points. *)
Lemma fractional_count_rounds_up_witness :
  List.length (xValues Demo.runtime Demo.halfCount) = 3%nat.
Proof.
  destruct (fractional_count_rounds_up Demo.runtime Demo.halfCount
              (Q2Qc (5 # 2)) eq_refl) as (_ & Hlen & _).
  - split; vm_compute; discriminate.
  - exact Hlen.
Defined.

Lemma string_bound_never_draws_witness :
  chartInstance (final (plotGraph Demo.runtime Demo.clearedMin))
  = chartInstance Demo.clearedMin.
Proof.
  refine (proj1 (string_bound_never_draws Demo.runtime Demo.clearedMin
                   "" (Qc_of_Z 3) eq_refl eq_refl _)).
  reflexivity.
Defined.

(** Max X cleared, Min X at -10: validation passes. *)
Lemma cleared_field_reads_as_zero_witness :
  validate Demo.runtime Demo.clearedMax = None.
Proof.
  destruct (cleared_field_reads_as_zero Demo.runtime Demo.clearedMax "")
    as [_ H].
  - intros c [].
  - destruct (H eq_refl eq_refl) as [Hmax _].
    apply (Hmax (Qc_of_Z (-10)) eq_refl eq_refl). reflexivity.
Defined.

(** ** Plotting, then unmounting *)

Section Unmount.

Variable R : runtime.

Lemma plot_success_fields (st st' : state) :
  plotGraph R st = Fulfilled st' ->
  errorMessage st' = "" ->
  chartCanvas st = true ->
  exists ch, chartInstance st' = Some ch /\ destroyed st' = destroyChart st.
Proof.
  intros Hp Hmsg Hcanvas.
  destruct (plotGraph_cases R st)
    as [(msg & Hv & H) | (Hv & [(msg & e & _ & _ & _ & Hf & H)
                               | [(err & e & _ & _ & _ & _ & H)
                                 | (d & ds & Hl & H)]])];
    rewrite H in Hp.
  - injection Hp as <-. cbn [errorMessage set_errorMessage] in Hmsg.
    destruct (validate_Some R st msg Hv) as [-> | [-> | ->]]; discriminate.
  - injection Hp as <-.
    cbn [errorMessage set_errorMessage set_loading] in Hmsg.
    apply failsWith_message in Hf. tauto.
  - discriminate.
  - unfold render in Hp.
    cbn [chartCanvas set_chart set_loading set_errorMessage] in Hp.
    rewrite Hcanvas in Hp.
    destruct (makeLabels R (xValues R st)); [discriminate |].
    injection Hp as <-. eexists. split; reflexivity.
Qed.

(** X17.  A plot that succeeds on a mounted canvas, followed by the
    unmounting of the component, has destroyed the chart there was before
    the plot and the chart the plot made, each once, the newer one last. *)
Theorem plot_then_unmount_destroys_both (st st' : state) :
  plotGraph R st = Fulfilled st' ->
  errorMessage st' = "" ->
  chartCanvas st = true ->
  exists ch,
    chartInstance st' = Some ch
    /\ destroyed (onBeforeUnmount st')
       = ch :: match chartInstance st with
               | Some old => old :: destroyed st
               | None => destroyed st
               end.
Proof.
  intros Hp Hmsg Hcanvas.
  destruct (plot_success_fields st st' Hp Hmsg Hcanvas) as (ch & Hc & Hd).
  exists ch. split; [exact Hc |].
  unfold onBeforeUnmount. cbn [destroyed set_chart].
  unfold destroyChart at 1. now rewrite Hc, Hd.
Qed.

End Unmount.

Lemma plot_then_unmount_destroys_both_witness :
  exists ch,
    destroyed
      (onBeforeUnmount
         (final (plotGraph Demo.runtime (Demo.withChart Demo.parabola))))
    = [ch; Demo.oldChart].
Proof.
  destruct (plot_then_unmount_destroys_both Demo.runtime
              (Demo.withChart Demo.parabola)
              (final (plotGraph Demo.runtime (Demo.withChart Demo.parabola))))
    as (ch & _ & Hd).
  - vm_compute. reflexivity.
  - vm_compute. reflexivity.
  - reflexivity.
  - exists ch. exact Hd.
Defined.
